(** * SerialWeight: an Arduino Mega 2560 reads an Ohaus Navigator scale

    A shallow embedding of [SerialWeight.ino].  The sketch assembles the
    bytes of serial port 1 into a line, shows the line on the first row
    of a 16x2 LCD, draws a capacity bar on the second row and drives
    three LEDs for check weighing.

    Conventions of the embedding:
    - a [char] is an [ascii]; the global array [receivedStr] is a list
      of [maxChars] cells and every access to it is bounds-checked: an
      access outside the array is undefined behaviour in C and is a
      [Fault] here;
    - [int] is the 16-bit integer of the ATmega2560, [size_t] its 16-bit
      unsigned integer, [long] is 32 bits wide;
    - [float] is IEEE 754 binary32, through [SpecFloat] at precision 24;
    - the LCD and the LEDs are external devices: the calls made on them
      are collected as a list of [event]s, in program order. *)

From Stdlib Require Import ZArith Bool Ascii Lia.
From Stdlib Require Import Floats.SpecFloat.
From stdpp Require Import base tactics option list strings gmap.

Local Open Scope Z_scope.

(** ** Characters *)

Definition char := ascii.

Definition NUL : char := "000"%char.
Definition LF : char := "010"%char.
Definition CR : char := "013"%char.
Definition SPACE : char := " "%char.

(** A string literal of the sketch as its characters. *)
Definition chars (s : string) : list char := String.list_ascii_of_string s.
Arguments chars s%_string.

(** ** Results of code that may step outside an array *)

Inductive fault :=
  | OutOfBounds (i : Z).

Inductive result (A : Type) :=
  | Done (a : A)
  | Fault (f : fault).
Arguments Done {A} a.
Arguments Fault {A} f.

#[global] Instance result_ret : MRet result := fun A a => Done a.
#[global] Instance result_bind : MBind result := fun A B k m =>
  match m with
  | Done a => k a
  | Fault f => Fault f
  end.

(** ** Machine integers of the target *)

(** [int]: 16 bits, two's complement. *)
Definition to_int (z : Z) : Z := (z + 32768) mod 65536 - 32768.

(** [size_t]: 16 bits, unsigned. *)
Definition to_size_t (z : Z) : Z := z mod 65536.

Definition LONG_MIN : Z := - 2147483648.
Definition LONG_MAX : Z := 2147483647.

(** ** Arrays of characters *)

(** [a[i]] as an rvalue. *)
Definition read (a : list char) (i : Z) : result char :=
  if (0 <=? i) && (i <? Z.of_nat (length a))
  then match a !! Z.to_nat i with
       | Some c => Done c
       | None => Fault (OutOfBounds i)
       end
  else Fault (OutOfBounds i).

(** [a[i] = c]. *)
Definition write (a : list char) (i : Z) (c : char) : result (list char) :=
  if (0 <=? i) && (i <? Z.of_nat (length a))
  then Done (<[Z.to_nat i := c]> a)
  else Fault (OutOfBounds i).

(** [strlen]: the index of the first NUL; scanning past the last cell
    of the array is a fault at that index. *)
Fixpoint strlen_from (i : Z) (a : list char) : result Z :=
  match a with
  | [] => Fault (OutOfBounds i)
  | c :: a' => if Ascii.eqb c NUL then Done i else strlen_from (i + 1) a'
  end.

Definition strlen (a : list char) : result Z := strlen_from 0 a.

(** The C string held by an array: its characters before the first NUL. *)
Definition cstring (a : list char) : result (list char) :=
  len ← strlen a; Done (take (Z.to_nat len) a).

(** ** Devices *)

Inductive level := LOW | HIGH.

Inductive event :=
  | SetCursor (col row : Z)
  | LcdWrite (c : char)
  | DigitalWrite (pin : Z) (v : level).

#[global] Instance level_eq_dec : EqDecision level.
Proof. solve_decision. Defined.

(** ** IEEE 754 binary32 *)

Definition float := spec_float.

Definition prec : Z := 24.
Definition emax : Z := 128.

Definition fadd : float -> float -> float := SFadd prec emax.
Definition fsub : float -> float -> float := SFsub prec emax.
Definition fmul : float -> float -> float := SFmul prec emax.
Definition fdiv : float -> float -> float := SFdiv prec emax.
Definition flt : float -> float -> bool := SFltb.
Definition fle : float -> float -> bool := SFleb.

(** Conversion of an integer to [float]. *)
Definition float_of_Z (z : Z) : float := binary_normalize prec emax z 0 false.

(** The decimal [m / 10^k]. *)
Definition decimal (m : Z) (k : nat) : float :=
  fdiv (float_of_Z m) (float_of_Z (10 ^ Z.of_nat k)).

Definition fzero : float := S754_zero false.
Definition fhalf : float := decimal 5 1.

(** ** Library routines of the target *)

(** [atof] is the C library's and not part of the sketch; the
    definitions below follow section 4.2 of the specification. *)

(** Modelled from the spec: the digits of the numeric prefix that
    [atof] reads; [atof] itself is missing from the sources. *)
Definition is_digit (c : char) : bool :=
  let n := Z.of_N (N_of_ascii c) in (48 <=? n) && (n <=? 57).

Definition digit_value (c : char) : Z := Z.of_N (N_of_ascii c) - 48.

(** Modelled from the spec: the longest run of digits at the head of
    the text, for the missing [atof]. *)
Fixpoint span_digits (s : list char) : list char * list char :=
  match s with
  | c :: s' =>
      if is_digit c
      then let '(ds, rest) := span_digits s' in (c :: ds, rest)
      else ([], s)
  | [] => ([], [])
  end.

Definition number_of (ds : list char) : Z :=
  fold_left (fun acc c => 10 * acc + digit_value c) ds 0.

(** Modelled from the spec: the leading optional sign, for the missing
    [atof]. *)
Definition split_sign (s : list char) : bool * list char :=
  match s with
  | c :: s' =>
      if Ascii.eqb c "-" then (true, s')
      else if Ascii.eqb c "+" then (false, s')
      else (false, s)
  | [] => (false, [])
  end.

(** Modelled from the spec: the optional decimal point and fractional
    digits, for the missing [atof]. *)
Definition fraction_digits (s : list char) : list char :=
  match s with
  | c :: s' => if Ascii.eqb c "." then fst (span_digits s') else []
  | [] => []
  end.

(** Modelled from the spec: the number that the digits [m] with [k] of
    them after the decimal point denote, [m / 10^k], rounded once to
    binary32 (to infinity when it is too large); for the missing
    [atof]. *)
Definition parse_decimal (m : Z) (k : nat) : float :=
  match m with
  | Zpos p =>
      SFdiv prec emax (S754_finite false p 0)
        (S754_finite false (Z.to_pos (10 ^ Z.of_nat k)) 0)
  | _ => fzero
  end.

(** Modelled from the spec: [atof], the C library's routine, is missing
    from the sources.  Section 4.2 of the specification describes it: a
    best-effort numeric parse of a leading optional sign, digits, an
    optional decimal point and fractional digits; trailing non-numeric
    content is ignored; the result is 0.0 when no valid numeric prefix
    exists; no error is signalled. *)
Definition atof (s : list char) : float :=
  let '(neg, s1) := split_sign s in
  let '(ip, s2) := span_digits s1 in
  match ip with
  | [] => fzero
  | _ :: _ =>
      let fp := fraction_digits s2 in
      let v := parse_decimal (number_of (ip ++ fp)) (length fp) in
      if neg then SFopp v else v
  end.

Section Platform.

(** The conversion of a [float] to [long] truncates toward zero.  C
    leaves it undefined for a NaN, an infinity, or a value outside the
    range of [long]; the routine of the target returns some [long]
    without trapping, and [undefined_long] stands for that value. *)
Variable undefined_long : float -> Z.

Definition long_of_float (x : float) : Z :=
  match x with
  | S754_zero _ => 0
  | S754_finite s m e =>
      let mag := Z.shiftl (Zpos m) e in
      let v := if s then - mag else mag in
      if (LONG_MIN <=? v) && (v <=? LONG_MAX) then v else undefined_long x
  | _ => undefined_long x
  end.

(** Modelled from the spec: [round], a macro of the Arduino core, is
    missing from the sources; the specification has
    [segments = round(weight / maxCapacity * barWidth)].  The macro is
    [((x)>=0?(long)((x)+0.5):(long)((x)-0.5))]: round to nearest, halves
    away from zero, through the conversion to [long] above. *)
Definition round (x : float) : Z :=
  if fle fzero x
  then long_of_float (fadd x fhalf)
  else long_of_float (fsub x fhalf).

(** ** The sketch *)

(** *** Globals *)

Definition maxChars : Z := 42.

Record state := {
  receivedStr : list char;
  numCharsReceived : Z
}.

Definition initial : state :=
  {| receivedStr := replicate (Z.to_nat maxChars) NUL; numCharsReceived := 0 |}.

Definition loLimit : float := float_of_Z 4990.
Definition hiLimit : float := float_of_Z 5010.
Definition pinHiLed : Z := 50.
Definition pinOkLed : Z := 48.
Definition pinLoLed : Z := 46.

Definition maxWeight : Z := 6200.

(** *** [for (int i = 0; i < 16; i++)] *)

Fixpoint for_upto (count : nat) (i : Z) (body : Z -> result (list event))
  : result (list event) :=
  match count with
  | O => Done []
  | S count' =>
      evs ← body i;
      rest ← for_upto count' (i + 1) body;
      Done (evs ++ rest)
  end.

(** *** [displayString] *)

Definition displayString (str : list char) : result (list event) :=
  len ← strlen str;
  let num := to_int len in
  cells ← for_upto 16 0 (fun i =>
    if i <? num
    then c ← read str i; Done [LcdWrite c]
    else Done [LcdWrite SPACE]);
  Done (SetCursor 0 0 :: cells).

(** *** [checkWeigh] *)

Definition checkWeigh (weight : float) : list event :=
  if flt weight loLimit then
    [DigitalWrite pinHiLed LOW; DigitalWrite pinOkLed LOW; DigitalWrite pinLoLed HIGH]
  else if flt hiLimit weight then
    [DigitalWrite pinHiLed HIGH; DigitalWrite pinOkLed LOW; DigitalWrite pinLoLed LOW]
  else
    [DigitalWrite pinHiLed LOW; DigitalWrite pinOkLed HIGH; DigitalWrite pinLoLed LOW].

(** *** [updateBar] *)

(** [int num = round(weight / maxWeight * 16)]: the two [int] operands
    are converted to [float], the [long] of [round] is narrowed to
    [int]. *)
Definition segments (weight : float) : Z :=
  to_int (round (fmul (fdiv weight (float_of_Z maxWeight)) (float_of_Z 16))).

Definition updateBar (weight : float) : result (list event) :=
  let num := segments weight in
  cells ← for_upto 16 0 (fun i =>
    if i <? num
    then Done [LcdWrite "="%char]
    else Done [LcdWrite SPACE]);
  Done (SetCursor 0 1 :: cells).

(** *** [loop] *)

(** What the body of [loop] hands to the display, the bar and the LEDs
    when it completes a line. *)
Record CompletedLine := {
  text : list char;
  weight : float;
  outputs : list event
}.

(** One turn of the [while] loop, for the character [c] that
    [Serial1.read()] returned.  In the second branch
    [numCharsReceived++] cannot overflow: the write before it has
    checked that the count is an index of the array. *)
Definition feed (c : char) (st : state) : result (state * option CompletedLine) :=
  let buf := receivedStr st in
  let n := numCharsReceived st in
  if Ascii.eqb c LF || (n =? maxChars) then
    len ← strlen buf;
    last ← read buf (to_size_t (len - 1));
    buf1 ← (if Ascii.eqb last CR
            then len' ← strlen buf; write buf (to_size_t (len' - 1)) NUL
            else Done buf);
    ev1 ← displayString buf1;
    txt ← cstring buf1;
    let w := atof txt in
    ev2 ← updateBar w;
    let ev3 := checkWeigh w in
    buf2 ← write buf1 0 NUL;
    Done ({| receivedStr := buf2; numCharsReceived := 0 |},
          Some {| text := txt; weight := w; outputs := ev1 ++ ev2 ++ ev3 |})
  else
    buf1 ← write buf n c;
    buf2 ← write buf1 (n + 1) NUL;
    Done ({| receivedStr := buf2; numCharsReceived := n + 1 |}, None).

(** The [while] loop over the bytes that are available, with the lines
    it completed, oldest first. *)
Fixpoint run (bytes : list char) (st : state) : result (state * list CompletedLine) :=
  match bytes with
  | [] => Done (st, [])
  | c :: bytes' =>
      '(st1, line) ← feed c st;
      '(st2, lines) ← run bytes' st1;
      Done (st2, from_option (fun l => [l]) [] line ++ lines)
  end.

End Platform.

(** ** Vocabulary of the specification *)

(** The three states of the check-weighing classifier and the LED
    pattern of each. *)
Inductive OutputState := Low | Ok | High.

#[global] Instance OutputState_eq_dec : EqDecision OutputState.
Proof. solve_decision. Defined.

Definition signals (s : OutputState) : list event :=
  match s with
  | Low => [DigitalWrite pinHiLed LOW; DigitalWrite pinOkLed LOW; DigitalWrite pinLoLed HIGH]
  | High => [DigitalWrite pinHiLed HIGH; DigitalWrite pinOkLed LOW; DigitalWrite pinLoLed LOW]
  | Ok => [DigitalWrite pinHiLed LOW; DigitalWrite pinOkLed HIGH; DigitalWrite pinLoLed LOW]
  end.

(** The levels of the digital outputs, by pin, and the effect of a
    list of events on them. *)
Definition digitalWrite (pins : gmap Z level) (e : event) : gmap Z level :=
  match e with
  | DigitalWrite pin v => <[pin := v]> pins
  | _ => pins
  end.

Definition drive (evs : list event) (pins : gmap Z level) : gmap Z level :=
  foldl digitalWrite pins evs.

Definition written_pins (evs : list event) : list Z :=
  omap (fun e => match e with DigitalWrite pin _ => Some pin | _ => None end) evs.

(** The characters a list of events writes to the LCD. *)
Definition written_chars (evs : list event) : list char :=
  omap (fun e => match e with LcdWrite c => Some c | _ => None end) evs.

(** A bar of [n] cells of which the first [k] are filled. *)
Definition bar (k n : nat) : list char :=
  replicate k "="%char ++ replicate (n - k) SPACE.

(** The segment count clamped to the width of the bar. *)
Definition clamp (num : Z) : nat := Z.to_nat (Z.max 0 (Z.min num 16)).

(** A row of [n] characters: the text cut at [n] and padded with spaces. *)
Definition row (n : nat) (txt : list char) : list char :=
  take n txt ++ replicate (n - length txt) SPACE.

(** The text has a numeric prefix: an optional sign followed by at
    least one digit. *)
Definition is_sign (sg : list char) : Prop :=
  sg = [] \/ sg = ["+"%char] \/ sg = ["-"%char].

Definition numeric_prefix (s : list char) : Prop :=
  exists sg ds rest,
    s = sg ++ ds ++ rest /\ is_sign sg /\ ds <> [] /\ forallb is_digit ds = true.

(** A numeric literal: optional sign, digits, and optionally a decimal
    point with fractional digits. *)
Definition is_fraction (fr : list char) : Prop :=
  fr = [] \/ exists fp, fr = "."%char :: fp /\ forallb is_digit fp = true.

Definition numeric_literal (s : list char) : Prop :=
  exists sg ds fr,
    s = sg ++ ds ++ fr /\ is_sign sg /\ ds <> [] /\ forallb is_digit ds = true /\
    is_fraction fr.

(** Trailing content that cannot continue a number. *)
Definition non_numeric (rest : list char) : Prop :=
  match rest with
  | [] => True
  | c :: _ => is_digit c = false /\ c <> "."%char
  end.

(** The line assembler has taken [pre] since the last completed line. *)
Definition holds (pre : list char) (st : state) : Prop :=
  length (receivedStr st) = Z.to_nat maxChars /\
  numCharsReceived st = Z.of_nat (length pre) /\
  take (length pre) (receivedStr st) = pre /\
  (pre <> [] -> receivedStr st !! length pre = Some NUL).

(** Fed to a state, the bytes and a line feed complete exactly one
    line: the bytes without their last character when that is a
    carriage return, the bytes unchanged otherwise. *)
Definition cr_stripped (ovf : float -> Z) (st : state) (bytes : list char) : Prop :=
  exists st' cl,
    run ovf (bytes ++ [LF]) st = Done (st', [cl]) /\
    (last bytes = Some CR -> text cl = removelast bytes) /\
    (last bytes <> Some CR -> text cl = bytes).

(** The text with one trailing carriage return removed, if it has one. *)
Definition strip_cr (txt : list char) : list char :=
  match last txt with
  | Some c => if Ascii.eqb c CR then removelast txt else txt
  | None => txt
  end.

(** ** [setup] *)






(** ** The screen *)

(** Modelled from the spec: the display driver is an external
    collaborator that accepts "set cursor" and "write character"
    commands and is missing from the sources.  A written character
    goes to the cell under the cursor, and the cursor moves one column
    to the right. *)
Record lcd := {
  cursor : Z * Z;
  cells : gmap (Z * Z) char
}.

Definition lcd_step (d : lcd) (e : event) : lcd :=
  match e with
  | SetCursor col row => {| cursor := (col, row); cells := cells d |}
  | LcdWrite ch =>
      {| cursor := (fst (cursor d) + 1, snd (cursor d));
         cells := <[cursor d := ch]> (cells d) |}
  | DigitalWrite _ _ => d
  end.

Definition display (evs : list event) (d : lcd) : lcd := foldl lcd_step d evs.

(** ** Vocabulary of the invariants *)

(** The array has its [maxChars] cells, the count is one of the indices
    0 to 41, and the cell at the count holds the terminator. *)
Definition terminated (st : state) : Prop :=
  length (receivedStr st) = Z.to_nat maxChars /\
  0 <= numCharsReceived st <= maxChars - 1 /\
  receivedStr st !! Z.to_nat (numCharsReceived st) = Some NUL.

(** Lines as they come over the serial port, each closed by [eol]. *)
Definition framed (eol : list char) (lines : list (list char)) : list char :=
  concat ((fun l => l ++ eol) <$> lines).

(** The number of line feeds among the bytes. *)
Definition line_feeds (bytes : list char) : nat :=
  length (filter (fun c => c = LF) bytes).

(** A line that the assembler takes whole: 1 to 41 bytes, none of them
    NUL or line feed. *)
Definition plain_line (l : list char) : Prop :=
  l <> [] /\ (length l <= 41)%nat /\ NUL ∉ l /\ LF ∉ l.

(** ** Readings of the scale in exact arithmetic *)

(** The reading of [w] tenths of a gram as the sketch's [float]: the
    binary32 number nearest to [w / 10]. *)
Definition reading (w : Z) : float := decimal w 1.

(** Sixteen times the reading over 6200, rounded to the nearest
    integer, halves up, in exact arithmetic. *)
Definition exact_segments (w : Z) : Z := (32 * w + 62000) / 124000.

(** The state of a reading under the exact comparison with 4990.0 and
    5010.0 grams. *)
Definition exact_state (w : Z) : OutputState :=
  if w <? 49900 then Low else if 50100 <? w then High else Ok.

(** The state that a list of three LED writes signals. *)
Definition state_of (evs : list event) : option OutputState :=
  match evs with
  | [DigitalWrite _ LOW; DigitalWrite _ LOW; DigitalWrite _ HIGH] => Some Low
  | [DigitalWrite _ HIGH; DigitalWrite _ LOW; DigitalWrite _ LOW] => Some High
  | [DigitalWrite _ LOW; DigitalWrite _ HIGH; DigitalWrite _ LOW] => Some Ok
  | _ => None
  end.

(** On the reading [w] the sketch computes the exact segment count and
    signals the exact state. *)
Definition reading_agrees (ovf : float -> Z) (w : Z) : bool :=
  let r := reading w in
  (segments ovf r =? exact_segments w) &&
  bool_decide (state_of (checkWeigh r) = Some (exact_state w)).

(** [f] holds on the first [k] blocks of [n] consecutive integers. *)
Definition holds_on_blocks (f : Z -> bool) (k n : Z) : bool :=
  forallb (fun j => forallb f (seqZ (j * n) n)) (seqZ 0 k).

(** ** Tactics *)

(** Inverts a successful sequence of binds, one step at a time. *)
Ltac bind_inv H :=
  repeat match type of H with
  | mbind _ ?m = Done _ =>
      let E := fresh "E" in
      destruct m eqn:E; cbn [mbind result_bind] in H; [| discriminate H]
  end.

(** * Properties *)

(** ** The comparisons of [checkWeigh] *)

(** Two positive numbers with the same exponent, the first with the
    smaller significand: nothing is below the first and above the
    second. *)
Lemma flt_band (e0 : Z) (ma mb : positive) (w : float) :
  (ma <= mb)%positive ->
  flt w (S754_finite false ma e0) = true ->
  flt (S754_finite false mb e0) w = false.
Proof.
  intros Hab. unfold flt, SFltb.
  destruct w as [s | s | | s m e]; try destruct s; cbn [SFcompare];
    try reflexivity; try discriminate.
  rewrite (Z.compare_antisym e e0).
  destruct (e ?= e0) eqn:He; cbn [CompOpp]; try discriminate; try reflexivity.
  change (Pos.compare_cont Eq m ma) with (Pos.compare m ma).
  change (Pos.compare_cont Eq mb m) with (Pos.compare mb m).
  destruct (Pos.compare_spec m ma) as [Hlo | Hlo | Hlo]; try discriminate.
  intros _.
  destruct (Pos.compare_spec mb m) as [Hhi | Hhi | Hhi]; try reflexivity.
  exfalso. lia.
Qed.

(** No weight is both below the lower and above the upper limit. *)
Lemma below_not_above (w : float) :
  flt w loLimit = true -> flt hiLimit w = false.
Proof. apply flt_band. vm_compute. discriminate. Qed.

Lemma signals_inj (s t : OutputState) : signals s = signals t -> s = t.
Proof. destruct s, t; cbn; congruence. Qed.

Lemma checkWeigh_signals (w : float) :
  checkWeigh w =
    signals (if flt w loLimit then Low else if flt hiLimit w then High else Ok).
Proof. unfold checkWeigh. destruct (flt w loLimit), (flt hiLimit w); reflexivity. Qed.

(** C1. For every weight, [checkWeigh] signals Low exactly when the weight
    is below [loLimit], High exactly when it is above [hiLimit], and Ok
    otherwise.  A weight equal to [loLimit] (4990) or to [hiLimit] (5010)
    is Ok; 4989.9 is Low and 5010.1 is High. *)
Theorem checkWeigh_classifies (w : float) :
  (checkWeigh w = signals Low <-> flt w loLimit = true) /\
  (checkWeigh w = signals High <-> flt hiLimit w = true) /\
  (checkWeigh w = signals Ok <-> flt w loLimit = false /\ flt hiLimit w = false) /\
  checkWeigh (float_of_Z 4990) = signals Ok /\
  checkWeigh (float_of_Z 5010) = signals Ok /\
  checkWeigh (decimal 49899 1) = signals Low /\
  checkWeigh (decimal 50101 1) = signals High.
Proof.
  rewrite checkWeigh_signals.
  pose proof (below_not_above w) as Hex.
  split; [| split; [| split]].
  - destruct (flt w loLimit), (flt hiLimit w); split; intros H;
      try apply signals_inj in H; congruence.
  - destruct (flt w loLimit), (flt hiLimit w); split; intros H;
      try apply signals_inj in H; try specialize (Hex eq_refl); congruence.
  - destruct (flt w loLimit), (flt hiLimit w);
      (split; [intros H; apply signals_inj in H; repeat split | intros [? ?]]);
      congruence.
  - repeat split; vm_compute; reflexivity.
Qed.

Lemma checkWeigh_classifies_witness :
  flt (decimal 49899 1) loLimit = true /\
  checkWeigh (decimal 49899 1) = signals Low.
Proof.
  destruct (checkWeigh_classifies (decimal 49899 1)) as ([_ Hlow] & _).
  split; [vm_compute; reflexivity |].
  apply Hlow. vm_compute. reflexivity.
Defined.

(** ** The outputs of [checkWeigh] *)

Lemma drive_signals_lookup (s : OutputState) (pins : gmap Z level) :
  let after := drive (signals s) pins in
  after !! pinLoLed = Some (if decide (s = Low) then HIGH else LOW) /\
  after !! pinOkLed = Some (if decide (s = Ok) then HIGH else LOW) /\
  after !! pinHiLed = Some (if decide (s = High) then HIGH else LOW).
Proof.
  destruct s; cbn; unfold pinLoLed, pinOkLed, pinHiLed;
    repeat split; by simplify_map_eq.
Qed.

Lemma drive_signals_twice (s : OutputState) (pins : gmap Z level) :
  drive (signals s) (drive (signals s) pins) = drive (signals s) pins.
Proof.
  apply map_eq; intros i. destruct s; cbn;
    rewrite !lookup_insert; repeat case_decide; congruence.
Qed.

(** C6. Every call of [checkWeigh] writes all three outputs, whatever
    their levels were before; afterwards exactly one of them is HIGH
    and the other two are LOW; a second call with the same weight
    writes the same events and leaves the same levels. *)
Theorem checkWeigh_drives_one (w : float) (pins : gmap Z level) :
  let after := drive (checkWeigh w) pins in
  written_pins (checkWeigh w) = [pinHiLed; pinOkLed; pinLoLed] /\
  (after !! pinLoLed, after !! pinOkLed, after !! pinHiLed) ∈
    [ (Some HIGH, Some LOW, Some LOW);
      (Some LOW, Some HIGH, Some LOW);
      (Some LOW, Some LOW, Some HIGH) ] /\
  drive (checkWeigh w) after = after.
Proof.
  intros after. subst after. rewrite checkWeigh_signals.
  set (s := if flt w loLimit then Low else if flt hiLimit w then High else Ok).
  split; [by destruct s |]. split; [| apply drive_signals_twice].
  destruct (drive_signals_lookup s pins) as (-> & -> & ->).
  destruct s; cbn; set_solver.
Qed.

(** ** Arrays and strings *)

Lemma read_lookup (a : list char) (i : nat) (c : char) :
  a !! i = Some c -> read a (Z.of_nat i) = Done c.
Proof.
  intros H. unfold read. pose proof (lookup_lt_Some _ _ _ H).
  rewrite Nat2Z.id, H.
  destruct (Z.leb_spec 0 (Z.of_nat i)), (Z.ltb_spec (Z.of_nat i) (Z.of_nat (length a)));
    cbn; try reflexivity; lia.
Qed.

Lemma write_insert (a : list char) (i : nat) (c : char) :
  (i < length a)%nat -> write a (Z.of_nat i) c = Done (<[i := c]> a).
Proof.
  intros H. unfold write. rewrite Nat2Z.id.
  destruct (Z.leb_spec 0 (Z.of_nat i)), (Z.ltb_spec (Z.of_nat i) (Z.of_nat (length a)));
    cbn; try reflexivity; lia.
Qed.

Lemma write_outside (a : list char) (i : Z) (c : char) :
  Z.of_nat (length a) <= i -> write a i c = Fault (OutOfBounds i).
Proof.
  intros H. unfold write.
  destruct (Z.ltb_spec i (Z.of_nat (length a))); [lia |].
  by rewrite andb_false_r.
Qed.

Lemma eqb_NUL_false (c : char) : c <> NUL -> Ascii.eqb c NUL = false.
Proof. intros H. by apply Ascii.eqb_neq. Qed.

Lemma strlen_from_app (pre tl : list char) (i : Z) :
  NUL ∉ pre -> strlen_from i (pre ++ NUL :: tl) = Done (i + Z.of_nat (length pre)).
Proof.
  revert i. induction pre as [| c pre IH]; intros i Hnul; cbn.
  - f_equal. lia.
  - rewrite eqb_NUL_false by set_solver.
    rewrite IH by set_solver. f_equal. lia.
Qed.

Lemma strlen_app (pre tl : list char) :
  NUL ∉ pre -> strlen (pre ++ NUL :: tl) = Done (Z.of_nat (length pre)).
Proof. intros H. unfold strlen. by rewrite strlen_from_app. Qed.

Lemma cstring_app (pre tl : list char) :
  NUL ∉ pre -> cstring (pre ++ NUL :: tl) = Done pre.
Proof.
  intros H. unfold cstring. rewrite strlen_app by done. cbn.
  by rewrite Nat2Z.id, take_app_length.
Qed.

Lemma to_int_small (z : Z) : -32768 <= z <= 32767 -> to_int z = z.
Proof. intros H. unfold to_int. rewrite Z.mod_small; lia. Qed.

(** ** The two rows of the display *)

(** Past the end of the text the loop of [displayString] writes spaces. *)
Lemma display_padding (str : list char) (num : Z) (n : nat) (i : Z) :
  num <= i ->
  for_upto n i (fun i =>
    if i <? num then c ← read str i; Done [LcdWrite c] else Done [LcdWrite SPACE])
  = Done (LcdWrite <$> replicate n SPACE).
Proof.
  revert i. induction n as [| n IH]; intros i Hi; [reflexivity |].
  cbn [for_upto]. destruct (Z.ltb_spec i num); [lia |].
  cbn. rewrite IH by lia. reflexivity.
Qed.

(** Inside the text it copies the characters. *)
Lemma display_cells (pre txt tl : list char) (n : nat) :
  for_upto n (Z.of_nat (length pre)) (fun i =>
    if i <? Z.of_nat (length (pre ++ txt))
    then c ← read (pre ++ txt ++ tl) i; Done [LcdWrite c]
    else Done [LcdWrite SPACE])
  = Done (LcdWrite <$> row n txt).
Proof.
  revert pre txt. induction n as [| n IH]; intros pre txt; [reflexivity |].
  destruct txt as [| c txt].
  - rewrite display_padding by (rewrite length_app; cbn; lia).
    unfold row. by rewrite take_nil, Nat.sub_0_r.
  - cbn [for_upto].
    destruct (Z.ltb_spec (Z.of_nat (length pre)) (Z.of_nat (length (pre ++ c :: txt))))
      as [_ | Hge]; [| rewrite length_app in Hge; cbn in Hge; lia].
    rewrite (read_lookup _ _ c)
      by (rewrite lookup_app_r by lia; by rewrite Nat.sub_diag).
    cbn.
    specialize (IH (pre ++ [c]) txt).
    rewrite length_app in IH. cbn [length] in IH.
    replace (Z.of_nat (length pre + 1)) with (Z.of_nat (length pre) + 1) in IH by lia.
    rewrite <- !(assoc_L (++)) in IH. cbn [app] in IH.
    rewrite IH. reflexivity.
Qed.

(** [displayString] on an array that holds the string [txt]. *)
Lemma displayString_row (txt tl : list char) :
  NUL ∉ txt -> Z.of_nat (length txt) <= 32767 ->
  displayString (txt ++ NUL :: tl)
  = Done (SetCursor 0 0 :: (LcdWrite <$> row 16 txt)).
Proof.
  intros Hnul Hlen. unfold displayString.
  rewrite strlen_app by done. cbn [mbind result_bind].
  rewrite to_int_small by lia.
  pose proof (display_cells [] txt (NUL :: tl) 16) as H.
  change (Z.of_nat (length (@nil char))) with 0 in H.
  cbn [app] in H. rewrite H. reflexivity.
Qed.

Lemma written_chars_LcdWrite (cs : list char) :
  written_chars (LcdWrite <$> cs) = cs.
Proof. induction cs as [| c cs IH]; [done |]. cbn. by f_equal. Qed.

Lemma length_row (n : nat) (txt : list char) : length (row n txt) = n.
Proof. unfold row. rewrite length_app, length_take, length_replicate. lia. Qed.

(** C7. For every text, [displayString] writes exactly 16 characters to
    the first row: the first [min (length text) 16] characters of the
    text, then spaces.  Presenting "5000" writes "5000" and 12 spaces. *)
Theorem displayString_presents (txt tl : list char) :
  NUL ∉ txt -> Z.of_nat (length txt) <= 32767 ->
  exists evs,
    displayString (txt ++ NUL :: tl) = Done (SetCursor 0 0 :: evs) /\
    evs = LcdWrite <$> written_chars evs /\
    length (written_chars evs) = 16%nat /\
    written_chars evs =
      take (min (length txt) 16) txt ++ replicate (16 - length txt) SPACE /\
    (txt = chars "5000" -> written_chars evs = chars "5000" ++ replicate 12 SPACE).
Proof.
  intros Hnul Hlen. exists (LcdWrite <$> row 16 txt).
  rewrite written_chars_LcdWrite.
  split; [by apply displayString_row |]. split; [done |].
  split; [apply length_row |]. split; [| by intros ->].
  unfold row. f_equal.
  destruct (Nat.le_ge_cases (length txt) 16) as [H | H].
  - rewrite Nat.min_l by done. by rewrite !take_ge.
  - by rewrite Nat.min_r.
Qed.

Lemma displayString_presents_witness :
  exists evs,
    displayString (chars "5000" ++ NUL :: replicate 37 NUL) = Done (SetCursor 0 0 :: evs) /\
    written_chars evs = chars "5000" ++ replicate 12 SPACE.
Proof.
  destruct (displayString_presents (chars "5000") (replicate 37 NUL))
    as (evs & H1 & _ & _ & _ & H5).
  - intros H. by apply list_elem_of_In in H; vm_compute in H; intuition.
  - vm_compute. discriminate.
  - exists evs. split; [exact H1 | by apply H5].
Defined.

(** The loop of [updateBar] from column [i] on, for [n] more columns. *)
Lemma bar_cells (num : Z) (n : nat) (i : Z) :
  for_upto n i (fun i =>
    if i <? num then Done [LcdWrite "="%char] else Done [LcdWrite SPACE])
  = Done (LcdWrite <$> bar (Z.to_nat (Z.max 0 (Z.min (num - i) (Z.of_nat n)))) n).
Proof.
  revert i. induction n as [| n IH]; intros i.
  - replace (Z.to_nat (Z.max 0 (Z.min (num - i) (Z.of_nat 0)))) with 0%nat by lia.
    reflexivity.
  - cbn [for_upto]. rewrite IH.
    destruct (Z.ltb_spec i num) as [Hlt | Hge]; cbn [mbind result_bind].
    + replace (Z.to_nat (Z.max 0 (Z.min (num - i) (Z.of_nat (S n)))))
        with (S (Z.to_nat (Z.max 0 (Z.min (num - (i + 1)) (Z.of_nat n))))) by lia.
      reflexivity.
    + replace (Z.to_nat (Z.max 0 (Z.min (num - i) (Z.of_nat (S n))))) with 0%nat by lia.
      replace (Z.to_nat (Z.max 0 (Z.min (num - (i + 1)) (Z.of_nat n)))) with 0%nat by lia.
      unfold bar. cbn. by rewrite Nat.sub_0_r.
Qed.

Lemma updateBar_bar (ovf : float -> Z) (w : float) :
  updateBar ovf w
  = Done (SetCursor 0 1 :: (LcdWrite <$> bar (clamp (segments ovf w)) 16)).
Proof.
  unfold updateBar. cbv zeta.
  pose proof (bar_cells (segments ovf w) 16 0) as H.
  rewrite H. cbn [mbind result_bind]. unfold clamp.
  by rewrite Z.sub_0_r.
Qed.

Lemma length_bar (k n : nat) : (k <= n)%nat -> length (bar k n) = n.
Proof. intros H. unfold bar. rewrite length_app, !length_replicate. lia. Qed.

Lemma clamp_le (num : Z) : (clamp num <= 16)%nat.
Proof. unfold clamp. lia. Qed.

(** The segment count is the [int] of the target: a rounded quotient
    of 32768 is narrowed to -32768 before the loop compares with it. *)
Lemma segments_narrowed (ovf : float -> Z) :
  round ovf (fmul (fdiv (float_of_Z 12697600) (float_of_Z maxWeight)) (float_of_Z 16))
    = 32768 /\
  segments ovf (float_of_Z 12697600) = -32768.
Proof. split; vm_compute; reflexivity. Qed.

(** X4.  For every weight, [updateBar] writes exactly 16 cells to the
    second row: the first are filled and the rest are empty, and the
    number of filled cells is [num] clamped to 0..16, where [num] is
    the sketch's [int]: the rounded quotient narrowed to 16 bits, equal
    to [round (weight / 6200 * 16)] whenever that fits in an [int].
    Weight 0 fills 0 cells, weight 6200 fills 16, and weight 9999
    fills 16. *)
Theorem updateBar_renders (ovf : float -> Z) (w : float) :
  let num := segments ovf w in
  (exists evs,
     updateBar ovf w = Done (SetCursor 0 1 :: evs) /\
     evs = LcdWrite <$> written_chars evs /\
     length (written_chars evs) = 16%nat /\
     written_chars evs = replicate (clamp num) "="%char ++ replicate (16 - clamp num) SPACE) /\
  (clamp num <= 16)%nat /\
  (num <= 0 -> clamp num = 0%nat) /\
  (0 <= num <= 16 -> clamp num = Z.to_nat num) /\
  (16 <= num -> clamp num = 16%nat) /\
  (let r := round ovf (fmul (fdiv w (float_of_Z maxWeight)) (float_of_Z 16)) in
   -32768 <= r <= 32767 -> num = r) /\
  updateBar ovf (float_of_Z 0) = Done (SetCursor 0 1 :: (LcdWrite <$> bar 0 16)) /\
  updateBar ovf (float_of_Z 6200) = Done (SetCursor 0 1 :: (LcdWrite <$> bar 16 16)) /\
  updateBar ovf (float_of_Z 9999) = Done (SetCursor 0 1 :: (LcdWrite <$> bar 16 16)).
Proof.
  intros num. split.
  { exists (LcdWrite <$> bar (clamp num) 16).
    rewrite written_chars_LcdWrite.
    split; [apply updateBar_bar |]. split; [done |].
    split; [apply length_bar, clamp_le | done]. }
  split; [apply clamp_le |].
  split; [unfold clamp; lia |]. split; [unfold clamp; lia |].
  split; [unfold clamp; lia |].
  split; [intros r Hr; subst num; unfold segments; by apply to_int_small |].
  rewrite !updateBar_bar. repeat split.
Qed.

Lemma updateBar_renders_witness :
  segments (fun _ => 0) (decimal 50000 1) = 13 /\
  clamp (segments (fun _ => 0) (decimal 50000 1)) = 13%nat.
Proof.
  pose proof (updateBar_renders (fun _ => 0) (decimal 50000 1)) as H.
  cbv zeta in H.
  destruct H as (_ & _ & _ & Hmid & _ & Hround & _).
  split.
  - apply Hround. vm_compute. split; discriminate.
  - apply Hmid. vm_compute. split; discriminate.
Defined.

(** C5. The bar is not clamped to the rounded quotient: [num] is an
    [int] of 16 bits and the quotient is narrowed before the loop
    compares with it.  The line "12697600" is the weight 12697600; its
    rounded quotient is 32768, [num] is -32768, and the bar of this
    over-capacity weight has no filled cell.  The weight -12700000 has
    the rounded quotient -32774, [num] is 32762, and the bar of this
    negative weight is full. *)
Theorem updateBar_narrows (ovf : float -> Z) :
  atof (chars "12697600") = float_of_Z 12697600 /\
  round ovf (fmul (fdiv (float_of_Z 12697600) (float_of_Z maxWeight)) (float_of_Z 16))
    = 32768 /\
  segments ovf (float_of_Z 12697600) = -32768 /\
  updateBar ovf (float_of_Z 12697600)
    = Done (SetCursor 0 1 :: (LcdWrite <$> bar 0 16)) /\
  round ovf (fmul (fdiv (float_of_Z (-12700000)) (float_of_Z maxWeight)) (float_of_Z 16))
    = -32774 /\
  segments ovf (float_of_Z (-12700000)) = 32762 /\
  updateBar ovf (float_of_Z (-12700000))
    = Done (SetCursor 0 1 :: (LcdWrite <$> bar 16 16)).
Proof. repeat split; vm_compute; reflexivity. Qed.

(** ** The line assembler *)

Lemma write_first_NUL (a b : list char) :
  write a 0 NUL = Done b -> cstring b = Done [].
Proof.
  unfold write. destruct a as [| c a]; cbn; [discriminate |].
  intros [= <-]. reflexivity.
Qed.

(** The first branch of [loop] ends with an empty buffer. *)
Lemma feed_finalize_resets (ovf : float -> Z) (c : char) (st st' : state)
    (r : option CompletedLine) :
  Ascii.eqb c LF || (numCharsReceived st =? maxChars) = true ->
  feed ovf c st = Done (st', r) ->
  is_Some r /\ cstring (receivedStr st') = Done [] /\ numCharsReceived st' = 0.
Proof.
  intros Hc H. unfold feed in H. rewrite Hc in H.
  bind_inv H. injection H as <- <-. cbn.
  split; [by eexists |]. split; [| reflexivity].
  eapply write_first_NUL; eassumption.
Qed.

(** The second branch completes no line. *)
Lemma feed_append_None (ovf : float -> Z) (c : char) (st st' : state)
    (r : option CompletedLine) :
  Ascii.eqb c LF || (numCharsReceived st =? maxChars) = false ->
  feed ovf c st = Done (st', r) -> r = None.
Proof.
  intros Hc H. unfold feed in H. rewrite Hc in H.
  bind_inv H. by injection H as <- <-.
Qed.

(** C9. When [loop] has completed a line and processed it (display,
    bar, LEDs), the buffer holds the empty string and the character
    count is zero before the next byte is read. *)
Theorem feed_resets (ovf : float -> Z) (c : char) (st st' : state)
    (cl : CompletedLine) :
  feed ovf c st = Done (st', Some cl) ->
  cstring (receivedStr st') = Done [] /\ numCharsReceived st' = 0.
Proof.
  intros H.
  destruct (Ascii.eqb c LF || (numCharsReceived st =? maxChars)) eqn:Hc.
  - by destruct (feed_finalize_resets ovf c st st' _ Hc H) as (_ & ? & ?).
  - by pose proof (feed_append_None ovf c st st' _ Hc H).
Qed.

(** ** Faults of the line assembler *)

(** A line feed on an empty buffer reads [receivedStr[strlen - 1]] with
    [strlen = 0]: the index is the largest [size_t]. *)
Lemma feed_LF_empty (ovf : float -> Z) (tl : list char) (n : Z) :
  Z.of_nat (length tl) < 65535 ->
  feed ovf LF {| receivedStr := NUL :: tl; numCharsReceived := n |}
  = Fault (OutOfBounds 65535).
Proof.
  intros Hlen. unfold feed. cbn [receivedStr numCharsReceived].
  change (Ascii.eqb LF LF) with true. cbn [orb].
  change (strlen (NUL :: tl)) with (Done (A := Z) 0). cbn [mbind result_bind].
  change (to_size_t (0 - 1)) with 65535.
  unfold read.
  destruct (Z.ltb_spec 65535 (Z.of_nat (length (NUL :: tl)))) as [H | H];
    [cbn [length] in H; lia |].
  rewrite andb_false_r. reflexivity.
Qed.

(** C2. A line feed that arrives while no character is buffered makes
    [loop] read [receivedStr[strlen(receivedStr) - 1]] at index 65535,
    outside the 42 cells of the array: the check for a trailing
    carriage return has no guard for the empty buffer. *)
Theorem feed_LF_initial (ovf : float -> Z) :
  feed ovf LF initial = Fault (OutOfBounds 65535).
Proof. reflexivity. Qed.

(** The 42nd character of a line: the character goes to the last cell
    and its terminator is written one cell past the array. *)
Lemma feed_overruns (ovf : float -> Z) (c : char) (st : state) :
  length (receivedStr st) = Z.to_nat maxChars ->
  numCharsReceived st = maxChars - 1 ->
  c <> LF ->
  feed ovf c st = Fault (OutOfBounds maxChars).
Proof.
  intros Hlen Hn Hc. unfold feed. rewrite Hn.
  change (Z.to_nat maxChars) with 42%nat in Hlen.
  apply Ascii.eqb_neq in Hc. rewrite Hc.
  change (maxChars - 1 =? maxChars) with false. cbn [orb].
  change (maxChars - 1) with (Z.of_nat 41).
  rewrite write_insert by lia. cbn [mbind result_bind].
  change (Z.of_nat 41 + 1) with maxChars.
  rewrite write_outside by (rewrite length_insert, Hlen; unfold maxChars; lia).
  reflexivity.
Qed.

(** Scanning an array without terminator runs off its end. *)
Lemma strlen_from_unterminated (a : list char) (i : Z) :
  NUL ∉ a -> strlen_from i a = Fault (OutOfBounds (i + Z.of_nat (length a))).
Proof.
  revert i. induction a as [| c a IH]; intros i Hnul; cbn.
  - do 2 f_equal. lia.
  - rewrite eqb_NUL_false by set_solver.
    rewrite IH by set_solver. do 2 f_equal. lia.
Qed.

(** With [maxChars] characters in the array there is no terminator in
    it: at a count of [maxChars] every byte makes [strlen] read cell
    42. *)
Lemma full_buffer_faults (ovf : float -> Z) (c : char) (buf : list char) :
  length buf = Z.to_nat maxChars -> NUL ∉ buf ->
  feed ovf c {| receivedStr := buf; numCharsReceived := maxChars |}
  = Fault (OutOfBounds maxChars).
Proof.
  intros Hlen Hnul. unfold feed. cbn [receivedStr numCharsReceived].
  rewrite Z.eqb_refl, orb_true_r.
  unfold strlen. rewrite strlen_from_unterminated by done.
  rewrite Hlen. reflexivity.
Qed.

(** C3. Forty-two bytes without a line feed overrun the buffer: the
    42nd is stored in the last cell and its terminator is written at
    index 42, outside the 42 cells of [receivedStr]. *)
Theorem run_overruns (ovf : float -> Z) :
  run ovf (replicate 42 "A"%char) initial = Fault (OutOfBounds 42).
Proof. vm_compute. reflexivity. Qed.


(** ** Assembling one line *)

Lemma run_app (ovf : float -> Z) (bs1 bs2 : list char) (st : state) :
  run ovf (bs1 ++ bs2) st =
    '(st1, l1) ← run ovf bs1 st;
    '(st2, l2) ← run ovf bs2 st1;
    Done (st2, l1 ++ l2).
Proof.
  revert st. induction bs1 as [| c bs1 IH]; intros st; cbn [app run].
  - cbn. by destruct (run ovf bs2 st) as [[st2 l2] |].
  - destruct (feed ovf c st) as [[st1 line] |]; cbn; [| done].
    rewrite IH. destruct (run ovf bs1 st1) as [[st1' l1] |]; cbn; [| done].
    destruct (run ovf bs2 st1') as [[st2 l2] |]; cbn; [| done].
    by rewrite (assoc_L (++)).
Qed.

(** Appending a character while there is room for it and its terminator. *)
Lemma feed_append (ovf : float -> Z) (c : char) (pre : list char) (st : state) :
  holds pre st -> (length pre <= 40)%nat -> c <> LF ->
  exists st', feed ovf c st = Done (st', None) /\ holds (pre ++ [c]) st'.
Proof.
  intros (Hlen & Hn & Htake & _) Hroom Hc.
  unfold feed. rewrite Hn. apply Ascii.eqb_neq in Hc. rewrite Hc.
  change (Z.to_nat maxChars) with 42%nat in Hlen.
  destruct (Z.eqb_spec (Z.of_nat (length pre)) maxChars) as [E | _];
    [unfold maxChars in E; lia |].
  cbn [orb]. rewrite write_insert by lia. cbn [mbind result_bind].
  replace (Z.of_nat (length pre) + 1) with (Z.of_nat (S (length pre))) by lia.
  rewrite write_insert by (rewrite length_insert; lia). cbn [mbind result_bind].
  eexists. split; [reflexivity |].
  unfold holds. cbn [receivedStr numCharsReceived].
  rewrite !length_insert, length_app. cbn [length].
  replace (length pre + 1)%nat with (S (length pre)) by lia.
  repeat split; [done | |].
  - rewrite take_insert_ge by lia.
    rewrite (take_S_r _ _ c) by (apply list_lookup_insert_eq; lia).
    by rewrite take_insert_ge, Htake by lia.
  - intros _. apply list_lookup_insert_eq. rewrite length_insert. lia.
Qed.

Lemma run_append (ovf : float -> Z) (bs pre : list char) (st : state) :
  holds pre st -> (length pre + length bs <= 41)%nat -> LF ∉ bs ->
  exists st', run ovf bs st = Done (st', []) /\ holds (pre ++ bs) st'.
Proof.
  revert pre st. induction bs as [| c bs IH]; intros pre st Hst Hroom Hlf.
  - exists st. split; [reflexivity |]. by rewrite app_nil_r.
  - cbn [length] in Hroom.
    destruct (feed_append ovf c pre st Hst) as (st1 & Hfeed & Hst1);
      [lia | set_solver |].
    destruct (IH (pre ++ [c]) st1 Hst1) as (st2 & Hrun & Hst2);
      [rewrite length_app; cbn; lia | set_solver |].
    exists st2. cbn [run]. rewrite Hfeed. cbn [mbind result_bind].
    rewrite Hrun. cbn. split; [reflexivity |].
    by rewrite <- (assoc_L (++)) in Hst2.
Qed.

(** The array of a state that holds a nonempty [pre]. *)
Lemma holds_array (pre : list char) (st : state) :
  holds pre st -> pre <> [] ->
  exists tl, receivedStr st = pre ++ NUL :: tl.
Proof.
  intros (_ & _ & Htake & Hnul) Hne. specialize (Hnul Hne).
  exists (drop (S (length pre)) (receivedStr st)).
  rewrite <- (take_drop (length pre) (receivedStr st)) at 1.
  rewrite Htake. f_equal. by apply drop_S.
Qed.

Lemma strip_cr_snoc (pre : list char) (x : char) :
  strip_cr (pre ++ [x]) = if Ascii.eqb x CR then pre else pre ++ [x].
Proof.
  unfold strip_cr. rewrite last_snoc.
  destruct (Ascii.eqb x CR); [| done]. by rewrite removelast_last.
Qed.

(** A line feed on a state that holds a nonempty text without NUL. *)
Lemma feed_finalize (ovf : float -> Z) (pre : list char) (st : state) :
  holds pre st -> pre <> [] -> NUL ∉ pre -> (length pre <= 41)%nat ->
  exists st' cl,
    feed ovf LF st = Done (st', Some cl) /\ text cl = strip_cr pre.
Proof.
  intros Hst Hne Hnul Hlen.
  destruct (holds_array pre st Hst Hne) as (tl & Harr).
  destruct pre as [| c0 pre0] using rev_ind; [done |]. clear IHpre0.
  rewrite length_app in Hlen. cbn [length] in Hlen.
  unfold feed. rewrite Harr. cbn [Ascii.eqb LF orb]. 
  change (Ascii.eqb LF LF) with true. cbn [orb].
  rewrite strlen_app by done. cbn [mbind result_bind].
  rewrite length_app. cbn [length].
  replace (to_size_t (Z.of_nat (length pre0 + 1) - 1)) with (Z.of_nat (length pre0))
    by (unfold to_size_t; rewrite Z.mod_small; lia).
  rewrite <- (assoc_L (++)). cbn [app].
  rewrite (read_lookup _ _ c0)
    by (rewrite lookup_app_r by lia; by rewrite Nat.sub_diag).
  cbn [mbind result_bind]. rewrite strip_cr_snoc.
  assert (Hnul0 : NUL ∉ pre0) by set_solver.
  destruct (Ascii.eqb c0 CR) eqn:Hcr.
  - rewrite write_insert by (rewrite length_app; cbn; lia).
    cbn [mbind result_bind].
    rewrite insert_app_r_alt, Nat.sub_diag by lia. cbn [insert list_insert].
    rewrite displayString_row by (done || lia). cbn [mbind result_bind].
    rewrite cstring_app by done. cbn [mbind result_bind].
    rewrite updateBar_bar. cbn [mbind result_bind].
    destruct pre0; cbn; eexists _, _; (split; [reflexivity | done]).
  - cbn [mbind result_bind].
    replace (pre0 ++ c0 :: NUL :: tl) with ((pre0 ++ [c0]) ++ NUL :: tl)
      by (by rewrite <- (assoc_L (++))).
    rewrite displayString_row by (done || (rewrite length_app; cbn; lia)).
    cbn [mbind result_bind].
    rewrite cstring_app by done. cbn [mbind result_bind].
    rewrite updateBar_bar. cbn [mbind result_bind].
    destruct pre0; cbn; eexists _, _; (split; [reflexivity | done]).
Qed.

Lemma strip_cr_cases (bytes : list char) :
  (last bytes = Some CR -> strip_cr bytes = removelast bytes) /\
  (last bytes <> Some CR -> strip_cr bytes = bytes).
Proof.
  unfold strip_cr. destruct (last bytes) as [c |]; [| by split].
  destruct (Ascii.eqb_spec c CR) as [-> | Hne]; split; congruence.
Qed.

(** C4, as amended. For every sequence of 1 to 41 bytes without NUL and
    without line feed, fed to an assembler whose count is zero and
    followed by a line feed: exactly one line is completed; when the
    last byte is a carriage return the line is the bytes with that one
    carriage return removed, and otherwise it is the bytes unchanged. *)
Theorem line_feed_strips (ovf : float -> Z) (st : state) (bytes : list char) :
  length (receivedStr st) = Z.to_nat maxChars ->
  numCharsReceived st = 0 ->
  bytes <> [] -> (length bytes <= 41)%nat ->
  NUL ∉ bytes -> LF ∉ bytes ->
  cr_stripped ovf st bytes.
Proof.
  intros Hlen Hn Hne Hmax Hnul Hlf.
  assert (Hst : holds [] st) by (by repeat split).
  destruct (run_append ovf bytes [] st Hst) as (st1 & Hrun & Hst1);
    [cbn; lia | done |]. cbn [app] in Hst1.
  destruct (feed_finalize ovf bytes st1 Hst1) as (st2 & cl & Hfeed & Htext);
    [done .. |].
  exists st2, cl. split.
  - rewrite run_app, Hrun. cbn [mbind result_bind run].
    rewrite Hfeed. reflexivity.
  - rewrite Htext. apply strip_cr_cases.
Qed.

Lemma line_feed_strips_witness :
  cr_stripped (fun _ => 0) initial (chars "5000" ++ [CR]).
Proof.
  apply line_feed_strips.
  - reflexivity.
  - reflexivity.
  - discriminate.
  - vm_compute. lia.
  - intros H. apply list_elem_of_In in H. vm_compute in H. intuition discriminate.
  - intros H. apply list_elem_of_In in H. vm_compute in H. intuition discriminate.
Defined.

(** C4, as stated, fails when the line holds a NUL: after a carriage
    return and a NUL the character before the line feed is not a
    carriage return, yet the completed line is empty, neither the two
    bytes nor the carriage return alone. *)
Lemma cr_stripped_counterexample :
  ~ cr_stripped (fun _ => 0) initial [CR; NUL] /\
  exists st' cl,
    run (fun _ => 0) ([CR; NUL] ++ [LF]) initial = Done (st', [cl]) /\ text cl = [].
Proof.
  split.
  - intros (st' & cl & Hrun & _ & Hno).
    vm_compute in Hrun. injection Hrun as _ <-.
    specialize (Hno ltac:(discriminate)). discriminate Hno.
  - eexists _, _. split; [vm_compute; reflexivity | reflexivity].
Qed.

Lemma feed_resets_witness :
  let st := {| receivedStr := chars "5000" ++ CR :: replicate 37 NUL;
               numCharsReceived := 5 |} in
  exists st' cl,
    feed (fun _ => 0) LF st = Done (st', Some cl) /\
    cstring (receivedStr st') = Done [] /\ numCharsReceived st' = 0.
Proof.
  intros st.
  destruct (feed (fun _ => 0) LF st) as [[st' [cl |]] |] eqn:E;
    try (vm_compute in E; discriminate E).
  exists st', cl. split; [reflexivity |].
  exact (feed_resets (fun _ => 0) LF st st' cl E).
Defined.

(** ** The weight parser *)

Lemma span_digits_spec (s ds rest : list char) :
  span_digits s = (ds, rest) -> s = ds ++ rest /\ forallb is_digit ds = true.
Proof.
  revert ds rest. induction s as [| c s IH]; intros ds rest; cbn.
  - by intros [= <- <-].
  - destruct (is_digit c) eqn:Hc; [| by intros [= <- <-]].
    destruct (span_digits s) as [ds' rest'].
    intros [= <- <-]. destruct (IH ds' rest' eq_refl) as [-> Hds].
    cbn. by rewrite Hc, Hds.
Qed.

Lemma span_digits_app (ds rest : list char) :
  forallb is_digit ds = true ->
  match rest with [] => True | c :: _ => is_digit c = false end ->
  span_digits (ds ++ rest) = (ds, rest).
Proof.
  intros Hds Hrest. induction ds as [| c ds IH]; cbn.
  - destruct rest as [| c rest]; [done |]. cbn. by rewrite Hrest.
  - cbn in Hds. apply andb_true_iff in Hds as [Hc Hds].
    by rewrite Hc, IH.
Qed.

Lemma split_sign_spec (s s1 : list char) (neg : bool) :
  split_sign s = (neg, s1) -> exists sg, is_sign sg /\ s = sg ++ s1.
Proof.
  unfold split_sign, is_sign.
  destruct s as [| c s]; [intros [= <- <-]; exists []; auto |].
  destruct (Ascii.eqb_spec c "-") as [-> | _];
    [intros [= <- <-]; exists ["-"%char]; auto |].
  destruct (Ascii.eqb_spec c "+") as [-> | _];
    [intros [= <- <-]; exists ["+"%char]; auto |].
  intros [= <- <-]. exists []. auto.
Qed.

Lemma digit_not_sign (c : char) :
  is_digit c = true -> Ascii.eqb c "-" = false /\ Ascii.eqb c "+" = false.
Proof.
  intros Hc. split; apply Ascii.eqb_neq; intros ->; discriminate Hc.
Qed.

Lemma split_sign_app (sg ds : list char) :
  is_sign sg -> ds <> [] -> forallb is_digit ds = true ->
  exists neg, forall rest, split_sign (sg ++ ds ++ rest) = (neg, ds ++ rest).
Proof.
  intros Hsg Hne Hds. destruct ds as [| c ds]; [done |].
  cbn in Hds. apply andb_true_iff in Hds as [Hc _].
  destruct (digit_not_sign c Hc) as [Hm Hp].
  destruct Hsg as [-> | [-> | ->]].
  - exists false. intros rest. cbn. by rewrite Hm, Hp.
  - by exists false.
  - by exists true.
Qed.

Lemma fraction_digits_app (fr rest : list char) :
  is_fraction fr -> non_numeric rest ->
  fraction_digits (fr ++ rest) = fraction_digits (fr ++ []).
Proof.
  intros [-> | (fp & -> & Hfp)] Hrest.
  - destruct rest as [| c rest]; [done |]. destruct Hrest as [_ Hdot].
    cbn. apply Ascii.eqb_neq in Hdot. by rewrite Hdot.
  - cbn. rewrite !span_digits_app; try done.
    destruct rest as [| c rest]; [done | by destruct Hrest].
Qed.

Lemma fraction_start (fr rest : list char) :
  is_fraction fr -> non_numeric rest ->
  match fr ++ rest with [] => True | c :: _ => is_digit c = false end.
Proof.
  intros [-> | (fp & -> & _)] Hrest; [| done].
  destruct rest as [| c rest]; [done | by destruct Hrest].
Qed.

(** Without a numeric prefix [atof] returns 0.0. *)
Lemma atof_no_prefix (s : list char) : ~ numeric_prefix s -> atof s = fzero.
Proof.
  intros Hno. unfold atof.
  destruct (split_sign s) as [neg s1] eqn:Hsign.
  destruct (span_digits s1) as [ip s2] eqn:Hspan.
  destruct ip as [| c ip]; [reflexivity |]. exfalso. apply Hno.
  destruct (split_sign_spec _ _ _ Hsign) as (sg & Hsg & ->).
  destruct (span_digits_spec _ _ _ Hspan) as [-> Hds].
  by exists sg, (c :: ip), s2.
Qed.

(** After a numeric literal, content that cannot continue it is ignored. *)
Lemma atof_trailing (lit rest : list char) :
  numeric_literal lit -> non_numeric rest -> atof (lit ++ rest) = atof lit.
Proof.
  intros (sg & ds & fr & -> & Hsg & Hne & Hds & Hfr) Hrest.
  destruct (split_sign_app sg ds Hsg Hne Hds) as (neg & Hsplit).
  unfold atof. rewrite <- !(assoc_L (++)), !Hsplit.
  rewrite (span_digits_app ds (fr ++ rest))
    by (done || by apply fraction_start).
  rewrite (span_digits_app ds fr)
    by (done || (rewrite <- (app_nil_r fr); by apply fraction_start)).
  destruct ds as [| c ds]; [done |].
  rewrite fraction_digits_app by done. by rewrite app_nil_r.
Qed.

(** C8. For every text without a numeric prefix (an optional sign
    followed by digits), [atof] returns 0.0; it is a total function and
    signals no error.  For a text that starts with a numeric literal
    (optional sign, digits, optional decimal point and fractional
    digits), the non-numeric content after the literal is ignored. *)
Theorem atof_best_effort :
  (forall s, ~ numeric_prefix s -> atof s = fzero) /\
  (forall lit rest,
     numeric_literal lit -> non_numeric rest -> atof (lit ++ rest) = atof lit).
Proof. split; [apply atof_no_prefix | apply atof_trailing]. Qed.

Lemma atof_best_effort_witness :
  atof (chars "abc") = fzero /\
  atof (chars "-12.5" ++ chars " g") = atof (chars "-12.5").
Proof.
  destruct atof_best_effort as [Hzero Htrail]. split.
  - apply Hzero. intros (sg & ds & rest & Heq & Hsg & Hne & Hds).
    destruct ds as [| c ds]; [done |].
    cbn in Hds. apply andb_true_iff in Hds as [Hc _].
    destruct Hsg as [-> | [-> | ->]]; try discriminate Heq.
    injection Heq as <- _. discriminate Hc.
  - apply Htrail.
    + exists ["-"%char], (chars "12"), (chars ".5").
      repeat split; [right; by right | discriminate |].
      right. by exists (chars "5").
    + split; [reflexivity | discriminate].
Defined.

(** [atof] on readings of the scale. *)
Lemma atof_examples :
  atof (chars "5000") = float_of_Z 5000 /\
  atof (chars "4989.9") = decimal 49899 1 /\
  atof (chars "-12.5 g") = SFopp (decimal 125 1) /\
  atof [] = fzero.
Proof. repeat split; vm_compute; reflexivity. Qed.

(** Long literals are rounded once: zeros after the point change
    nothing, and a number beyond the range of binary32 is infinite. *)
Lemma atof_long_literals :
  atof (chars "5010.00000000000") = float_of_Z 5010 /\
  atof (chars "5.000000000000000000000000000000000000000") = float_of_Z 5 /\
  atof (chars "4990.000000000000000000000000000000000000") = float_of_Z 4990 /\
  atof (chars "12697600") = float_of_Z 12697600 /\
  atof (chars "10000000000000000000000000000000000000000") = S754_infinity false.
Proof. repeat split; vm_compute; reflexivity. Qed.

(** * Further properties of the sketch *)

(** ** Inversions *)

Lemma write_inv (a b : list char) (i : Z) (c : char) :
  write a i c = Done b ->
  0 <= i < Z.of_nat (length a) /\ b = <[Z.to_nat i := c]> a.
Proof.
  unfold write.
  destruct (Z.leb_spec 0 i), (Z.ltb_spec i (Z.of_nat (length a)));
    cbn; intros [= <-]; split; (lia || done).
Qed.

Lemma write_length (a b : list char) (i : Z) (c : char) :
  write a i c = Done b -> length b = length a.
Proof. intros H. apply write_inv in H as [_ ->]. apply length_insert. Qed.

Lemma strlen_from_inv (a : list char) (i k : Z) :
  strlen_from i a = Done k ->
  exists p tl, a = p ++ NUL :: tl /\ NUL ∉ p /\ k = i + Z.of_nat (length p).
Proof.
  revert i. induction a as [| c a IH]; intros i; cbn; [discriminate |].
  destruct (Ascii.eqb_spec c NUL) as [-> | Hc].
  - intros [= <-]. exists [], a. repeat split; [set_solver | cbn; lia].
  - intros H. destruct (IH _ H) as (p & tl & -> & Hp & ->).
    exists (c :: p), tl. repeat split; [set_solver | cbn; lia].
Qed.

Lemma cstring_inv (a t : list char) :
  cstring a = Done t -> exists tl, a = t ++ NUL :: tl /\ NUL ∉ t.
Proof.
  unfold cstring, strlen. intros H. bind_inv H. injection H as <-.
  destruct (strlen_from_inv _ _ _ E) as (p & tl & -> & Hp & ->).
  exists tl. split; [| by rewrite Z.add_0_l, Nat2Z.id, take_app_length].
  by rewrite Z.add_0_l, Nat2Z.id, take_app_length.
Qed.

(** The array keeps its size. *)
Lemma feed_length (ovf : float -> Z) (c : char) (st st' : state)
    (r : option CompletedLine) :
  feed ovf c st = Done (st', r) ->
  length (receivedStr st') = length (receivedStr st).
Proof.
  intros H. unfold feed in H.
  destruct (Ascii.eqb c LF || (numCharsReceived st =? maxChars)).
  - bind_inv H. injection H as <- <-. cbn [receivedStr].
    rewrite (write_length _ _ _ _ E5).
    destruct (Ascii.eqb a0 CR); [| by injection E1 as <-].
    bind_inv E1. by apply write_length in E1.
  - bind_inv H. injection H as <- <-. cbn [receivedStr].
    rewrite (write_length _ _ _ _ E0). by apply write_length in E.
Qed.

(** ** The invariant of the line assembler *)

Lemma terminated_initial : terminated initial.
Proof. repeat split; (reflexivity || (unfold maxChars; cbn; lia)). Qed.

(** One turn of the loop keeps the invariant, and it completes a line
    exactly for a line feed. *)
Lemma feed_terminated (ovf : float -> Z) (c : char) (st st' : state)
    (r : option CompletedLine) :
  terminated st -> feed ovf c st = Done (st', r) ->
  terminated st' /\ (is_Some r <-> c = LF).
Proof.
  intros (Hlen & Hn & Hnul) H.
  pose proof (feed_length ovf c st st' r H) as Hlen'. rewrite Hlen in Hlen'.
  assert (Hcap : (numCharsReceived st =? maxChars) = false)
    by (apply Z.eqb_neq; lia).
  destruct (Ascii.eqb_spec c LF) as [-> | Hc].
  - assert (Hcond : Ascii.eqb LF LF || (numCharsReceived st =? maxChars) = true)
      by done.
    destruct (feed_finalize_resets ovf LF st st' r Hcond H) as (Hr & Hcs & Hn').
    split; [| done]. repeat split; [done | lia | lia |].
    rewrite Hn'. destruct (cstring_inv _ _ Hcs) as (tl & -> & _). done.
  - unfold feed in H. apply Ascii.eqb_neq in Hc. rewrite Hc, Hcap in H.
    cbn [orb] in H. bind_inv H. injection H as <- <-.
    apply write_inv in E as [Hi ->]. apply write_inv in E0 as [Hj ->].
    rewrite length_insert in Hj. rewrite Hlen in Hi, Hj.
    split; [| split; [by intros [? ?] | intros ->; discriminate Hc]].
    unfold terminated, maxChars in *. cbn [receivedStr numCharsReceived] in *.
    repeat split; [done | lia | lia |].
    apply list_lookup_insert_eq. rewrite length_insert. lia.
Qed.

Lemma line_feeds_cons (c : char) (bs : list char) :
  line_feeds (c :: bs) = ((if Ascii.eqb c LF then 1 else 0) + line_feeds bs)%nat.
Proof.
  unfold line_feeds. rewrite filter_cons.
  destruct (Ascii.eqb_spec c LF); case_decide; done.
Qed.

Lemma run_invariant (ovf : float -> Z) (bs : list char) (st st' : state)
    (ls : list CompletedLine) :
  terminated st -> run ovf bs st = Done (st', ls) ->
  terminated st' /\ length ls = line_feeds bs.
Proof.
  revert st st' ls. induction bs as [| c bs IH]; intros st st' ls Hst H.
  - by injection H as <- <-.
  - cbn [run] in H. bind_inv H. destruct a as [st1 r].
    bind_inv H. destruct a as [st2 ls2]. injection H as <- <-.
    destruct (feed_terminated ovf c st st1 r Hst E) as [Hst1 Hr].
    destruct (IH st1 st2 ls2 Hst1 E0) as [Hst2 Hls2].
    split; [done |]. rewrite line_feeds_cons, length_app, Hls2. f_equal.
    destruct (Ascii.eqb_spec c LF) as [-> | Hc].
    + destruct r; [done |]. by destruct (proj2 Hr eq_refl).
    + destruct r; [| done]. destruct Hc. apply Hr. by eexists.
Qed.

(** The string in a terminated array ends at or before the count. *)
Lemma terminated_strlen (st : state) :
  terminated st ->
  exists p tl,
    receivedStr st = p ++ NUL :: tl /\ NUL ∉ p /\
    Z.of_nat (length p) <= numCharsReceived st.
Proof.
  intros (_ & Hn & Hnul).
  assert (Hin : NUL ∈ receivedStr st) by (apply list_elem_of_lookup; eauto).
  destruct (list_elem_of_split_l _ _ Hin) as (p & tl & Heq & Hp).
  exists p, tl. repeat split; [done .. |].
  destruct (Z.le_gt_cases (Z.of_nat (length p)) (numCharsReceived st)); [done |].
  rewrite Heq, lookup_app_l in Hnul by lia.
  destruct Hp. apply list_elem_of_lookup. eauto.
Qed.

(** X1.  In every state that the loop reaches from a terminated state
    without a fault, the array has its 42 cells, the count is between 0
    and 41 (it never reaches [maxChars]), the cell at the count holds
    the terminator, and [strlen] finds a terminator at or before the
    count. *)
Theorem run_keeps_terminated (ovf : float -> Z) (bs : list char)
    (st st' : state) (ls : list CompletedLine) :
  terminated st -> run ovf bs st = Done (st', ls) ->
  length (receivedStr st') = 42%nat /\
  0 <= numCharsReceived st' <= 41 /\
  numCharsReceived st' <> maxChars /\
  receivedStr st' !! Z.to_nat (numCharsReceived st') = Some NUL /\
  exists k, strlen (receivedStr st') = Done k /\ 0 <= k <= numCharsReceived st'.
Proof.
  intros Hst H. destruct (run_invariant ovf bs st st' ls Hst H) as [Hst' _].
  destruct (terminated_strlen st' Hst') as (p & tl & Heq & Hp & Hle).
  destruct Hst' as (Hlen & Hn & Hnul). unfold maxChars in *.
  repeat split; [done | lia | lia | lia | done |].
  exists (Z.of_nat (length p)). rewrite Heq, strlen_app by done.
  split; [done | lia].
Qed.

Lemma run_keeps_terminated_witness :
  terminated initial /\
  exists st' ls,
    run (fun _ => 0) (chars "5000" ++ [CR; LF] ++ chars "12") initial = Done (st', ls) /\
    numCharsReceived st' = 2 /\
    receivedStr st' !! Z.to_nat (numCharsReceived st') = Some NUL.
Proof.
  split; [exact terminated_initial |].
  destruct (run (fun _ => 0) (chars "5000" ++ [CR; LF] ++ chars "12") initial)
    as [[st' ls] |] eqn:E; [| vm_compute in E; discriminate E].
  exists st', ls. split; [reflexivity |].
  destruct (run_keeps_terminated _ _ _ _ _ terminated_initial E)
    as (_ & _ & _ & Hnul & _).
  split; [| exact Hnul].
  vm_compute in E. by injection E as <- _.
Defined.

(** X3.  A fault-free run from a terminated state completes exactly one line
    per line feed: reaching the capacity of the buffer never completes
    a line. *)
Theorem run_counts_line_feeds (ovf : float -> Z) (bs : list char)
    (st st' : state) (ls : list CompletedLine) :
  terminated st -> run ovf bs st = Done (st', ls) ->
  length ls = line_feeds bs.
Proof. intros Hst H. by destruct (run_invariant ovf bs st st' ls Hst H). Qed.

Lemma run_counts_line_feeds_witness :
  terminated initial /\
  exists st' ls,
    run (fun _ => 0) (chars "5000" ++ [CR; LF] ++ chars "12" ++ [LF]) initial
      = Done (st', ls) /\
    length ls = 2%nat.
Proof.
  split; [exact terminated_initial |].
  destruct (run (fun _ => 0) (chars "5000" ++ [CR; LF] ++ chars "12" ++ [LF]) initial)
    as [[st' ls] |] eqn:E; [| vm_compute in E; discriminate E].
  exists st', ls. split; [reflexivity |].
  exact (run_counts_line_feeds _ _ _ _ _ terminated_initial E).
Defined.

(** ** When the loop faults and when it does not *)

(** A line feed on an array that holds the nonempty string [p]. *)
Lemma feed_LF_array (ovf : float -> Z) (p tl : list char) (st : state) :
  receivedStr st = p ++ NUL :: tl -> p <> [] -> NUL ∉ p ->
  Z.of_nat (length p) <= 32767 ->
  exists st' cl,
    feed ovf LF st = Done (st', Some cl) /\ text cl = strip_cr p.
Proof.
  intros Harr Hne Hnul Hlen.
  destruct p as [| c0 p0] using rev_ind; [done |]. clear IHp0.
  rewrite length_app in Hlen. cbn [length] in Hlen.
  unfold feed. rewrite Harr.
  change (Ascii.eqb LF LF) with true. cbn [orb].
  rewrite strlen_app by done. cbn [mbind result_bind].
  rewrite length_app. cbn [length].
  replace (to_size_t (Z.of_nat (length p0 + 1) - 1)) with (Z.of_nat (length p0))
    by (unfold to_size_t; rewrite Z.mod_small; lia).
  rewrite <- (assoc_L (++)). cbn [app].
  rewrite (read_lookup _ _ c0)
    by (rewrite lookup_app_r by lia; by rewrite Nat.sub_diag).
  cbn [mbind result_bind]. rewrite strip_cr_snoc.
  assert (Hnul0 : NUL ∉ p0) by set_solver.
  destruct (Ascii.eqb c0 CR) eqn:Hcr.
  - rewrite write_insert by (rewrite length_app; cbn; lia).
    cbn [mbind result_bind].
    rewrite insert_app_r_alt, Nat.sub_diag by lia. cbn [insert list_insert].
    rewrite displayString_row by (done || lia). cbn [mbind result_bind].
    rewrite cstring_app by done. cbn [mbind result_bind].
    rewrite updateBar_bar. cbn [mbind result_bind].
    destruct p0; cbn; eexists _, _; (split; [reflexivity | done]).
  - cbn [mbind result_bind].
    replace (p0 ++ c0 :: NUL :: tl) with ((p0 ++ [c0]) ++ NUL :: tl)
      by (by rewrite <- (assoc_L (++))).
    rewrite displayString_row by (done || (rewrite length_app; cbn; lia)).
    cbn [mbind result_bind].
    rewrite cstring_app by done. cbn [mbind result_bind].
    rewrite updateBar_bar. cbn [mbind result_bind].
    destruct p0; cbn; eexists _, _; (split; [reflexivity | done]).
Qed.

(** Appending to a terminated state below the last index. *)
Lemma feed_char_done (ovf : float -> Z) (c : char) (st : state) :
  terminated st -> c <> LF -> numCharsReceived st <= 40 ->
  exists st', feed ovf c st = Done (st', None).
Proof.
  intros (Hlen & Hn & _) Hc Hroom. unfold feed.
  apply Ascii.eqb_neq in Hc. rewrite Hc.
  change (Z.to_nat maxChars) with 42%nat in Hlen. unfold maxChars in *.
  destruct (Z.eqb_spec (numCharsReceived st) 42) as [E | _]; [lia |].
  cbn [orb].
  assert (Hk : numCharsReceived st = Z.of_nat (Z.to_nat (numCharsReceived st)))
    by lia.
  set (k := Z.to_nat (numCharsReceived st)) in Hk. rewrite Hk.
  rewrite write_insert by lia. cbn [mbind result_bind].
  replace (Z.of_nat k + 1) with (Z.of_nat (S k)) by lia.
  rewrite write_insert by (rewrite length_insert; lia).
  cbn [mbind result_bind]. by eexists.
Qed.

(** X2.  From a terminated state one turn of the loop faults in exactly two
    cases: a line feed while the string in the buffer is empty (the
    read at index 65535), and a character other than line feed while
    the count is 41 (the write of the terminator at index 42). *)
Theorem feed_faults_exactly (ovf : float -> Z) (c : char) (st : state) :
  terminated st ->
  match feed ovf c st with
  | Fault f =>
      (c = LF /\ receivedStr st !! 0%nat = Some NUL /\ f = OutOfBounds 65535) \/
      (c <> LF /\ numCharsReceived st = 41 /\ f = OutOfBounds 42)
  | Done _ =>
      (c = LF /\ receivedStr st !! 0%nat <> Some NUL) \/
      (c <> LF /\ numCharsReceived st <= 40)
  end.
Proof.
  intros Hst. pose proof Hst as (Hlen & Hn & Hnul).
  change (Z.to_nat maxChars) with 42%nat in Hlen. unfold maxChars in Hn.
  destruct (Ascii.eqb_spec c LF) as [-> | Hc].
  - destruct (terminated_strlen st Hst) as (p & tl & Harr & Hp & Hle).
    destruct p as [| c0 p].
    + destruct st as [buf n]. cbn [receivedStr app] in *. subst buf.
      rewrite feed_LF_empty by (cbn [length] in Hlen; lia). left. done.
    + destruct (feed_LF_array ovf (c0 :: p) tl st Harr) as (st' & cl & -> & _);
        [done | done | lia |].
      left. split; [done |]. rewrite Harr. cbn. intros [= ->]. set_solver.
  - destruct (Z.le_gt_cases (numCharsReceived st) 40) as [Hroom | Hfull].
    + destruct (feed_char_done ovf c st Hst Hc Hroom) as (st' & ->). by right.
    + rewrite feed_overruns by (done || (unfold maxChars; lia)).
      right. repeat split; [done | lia].
Qed.

Lemma feed_faults_exactly_witness :
  terminated initial /\
  feed (fun _ => 0) LF initial = Fault (OutOfBounds 65535) /\
  exists st', feed (fun _ => 0) "5"%char initial = Done (st', None).
Proof.
  split; [exact terminated_initial |].
  pose proof (feed_faults_exactly (fun _ => 0) LF initial terminated_initial) as H1.
  pose proof (feed_faults_exactly (fun _ => 0) "5"%char initial terminated_initial) as H2.
  split.
  - destruct (feed (fun _ => 0) LF initial) as [? | f].
    + destruct H1 as [[_ H] | [H _]]; [by destruct H | by destruct H].
    + destruct H1 as [(_ & _ & ->) | (H & _)]; [reflexivity | by destruct H].
  - destruct (feed (fun _ => 0) "5"%char initial) as [[st' r] | f] eqn:E.
    + exists st'. vm_compute in E. by injection E as <- <-.
    + destruct H2 as [(H & _) | (_ & H & _)]; discriminate H.
Defined.

(** ** What a completed line puts out *)

Lemma length_checkWeigh (w : float) : length (checkWeigh w) = 3%nat.
Proof. rewrite checkWeigh_signals. by destruct (if flt w loLimit then _ else _). Qed.

(** The steps of a completed line, in program order. *)
Lemma feed_line_outputs (ovf : float -> Z) (c : char) (st st' : state)
    (cl : CompletedLine) :
  length (receivedStr st) = Z.to_nat maxChars ->
  feed ovf c st = Done (st', Some cl) ->
  NUL ∉ text cl /\
  weight cl = atof (text cl) /\
  outputs cl =
    SetCursor 0 0 :: (LcdWrite <$> row 16 (text cl)) ++
    SetCursor 0 1 :: (LcdWrite <$> bar (clamp (segments ovf (weight cl))) 16) ++
    checkWeigh (weight cl) /\
  length (outputs cl) = 37%nat.
Proof.
  intros Hlen H. unfold feed in H.
  destruct (Ascii.eqb c LF || (numCharsReceived st =? maxChars));
    [| bind_inv H; discriminate H].
  bind_inv H. injection H as <- <-. cbn [text weight outputs].
  assert (Hlen1 : length a1 = length (receivedStr st)).
  { destruct (Ascii.eqb a0 CR); [| by injection E1 as <-].
    bind_inv E1. by apply write_length in E1. }
  destruct (cstring_inv _ _ E3) as (tl & -> & Hnul).
  rewrite Hlen, length_app in Hlen1. change (Z.to_nat maxChars) with 42%nat in Hlen1.
  rewrite displayString_row in E2 by (done || lia). injection E2 as <-.
  rewrite updateBar_bar in E4. injection E4 as <-.
  repeat split; [done |].
  pose proof (length_bar (clamp (segments ovf (atof a3))) 16 (clamp_le _)) as Hbar.
  rewrite !length_app. cbn [length].
  rewrite !length_fmap, length_row, Hbar, length_checkWeigh.
  reflexivity.
Qed.

(** X5.  Every line that the loop completes goes through the same steps, in
    this order: the first row is set to the text cut or padded to 16
    characters, the weight is [atof] of the text, the second row is set
    to the bar of that weight, and the three LEDs are written for that
    weight: 37 device calls in all.  The text holds no NUL. *)
Theorem feed_outputs (ovf : float -> Z) (c : char) (st st' : state)
    (cl : CompletedLine) :
  length (receivedStr st) = Z.to_nat maxChars ->
  feed ovf c st = Done (st', Some cl) ->
  NUL ∉ text cl /\
  weight cl = atof (text cl) /\
  outputs cl =
    SetCursor 0 0 :: (LcdWrite <$> row 16 (text cl)) ++
    SetCursor 0 1 :: (LcdWrite <$> bar (clamp (segments ovf (weight cl))) 16) ++
    checkWeigh (weight cl) /\
  length (outputs cl) = 37%nat.
Proof. apply feed_line_outputs. Qed.

Lemma feed_outputs_witness :
  let st := {| receivedStr := chars "5000" ++ CR :: replicate 37 NUL;
               numCharsReceived := 5 |} in
  length (receivedStr st) = Z.to_nat maxChars /\
  exists st' cl,
    feed (fun _ => 0) LF st = Done (st', Some cl) /\
    weight cl = atof (text cl) /\ length (outputs cl) = 37%nat.
Proof.
  intros st. split; [reflexivity |].
  destruct (feed (fun _ => 0) LF st) as [[st' [cl |]] |] eqn:E;
    try (vm_compute in E; discriminate E).
  exists st', cl. split; [reflexivity |].
  destruct (feed_outputs (fun _ => 0) LF st st' cl eq_refl E) as (_ & Hw & _ & Hl).
  split; [exact Hw | exact Hl].
Defined.

(** ** Streams of lines *)

(** One plain line and its line feed, from an empty count. *)
Lemma run_one_line (ovf : float -> Z) (l : list char) (st : state) :
  length (receivedStr st) = Z.to_nat maxChars -> numCharsReceived st = 0 ->
  plain_line l ->
  exists st' cl,
    run ovf (l ++ [LF]) st = Done (st', [cl]) /\ text cl = strip_cr l /\
    length (receivedStr st') = Z.to_nat maxChars /\ numCharsReceived st' = 0.
Proof.
  intros Hlen Hn (Hne & Hmax & Hnul & Hlf).
  assert (Hst : holds [] st) by (by repeat split).
  destruct (run_append ovf l [] st Hst) as (st1 & Hrun & Hst1);
    [cbn; lia | done |]. cbn [app] in Hst1.
  destruct (feed_finalize ovf l st1 Hst1) as (st2 & cl & Hfeed & Htext);
    [done .. |].
  exists st2, cl.
  destruct (feed_finalize_resets ovf LF st1 st2 _ eq_refl Hfeed) as (_ & _ & Hn2).
  pose proof (feed_length ovf LF st1 st2 _ Hfeed) as Hlen2.
  destruct Hst1 as (Hlen1 & _). rewrite Hlen1 in Hlen2.
  repeat split; [| done ..].
  rewrite run_app, Hrun. cbn [mbind result_bind run].
  by rewrite Hfeed.
Qed.

Lemma run_lines (ovf : float -> Z) (lines : list (list char)) (st : state) :
  length (receivedStr st) = Z.to_nat maxChars -> numCharsReceived st = 0 ->
  Forall plain_line lines ->
  exists st' cls,
    run ovf (framed [LF] lines) st = Done (st', cls) /\
    text <$> cls = strip_cr <$> lines /\
    length (receivedStr st') = Z.to_nat maxChars /\ numCharsReceived st' = 0.
Proof.
  revert st. induction lines as [| l lines IH]; intros st Hlen Hn Hall.
  - by exists st, [].
  - apply Forall_cons in Hall as [Hl Hall].
    destruct (run_one_line ovf l st Hlen Hn Hl) as (st1 & cl & Hrun & Htext & Hlen1 & Hn1).
    destruct (IH st1 Hlen1 Hn1 Hall) as (st2 & cls & Hrun2 & Htexts & Hlen2 & Hn2).
    exists st2, (cl :: cls). repeat split; [| | done ..].
    + unfold framed in *. cbn [fmap list_fmap concat].
      rewrite run_app, Hrun. cbn [mbind result_bind].
      by rewrite Hrun2.
    + cbn. by rewrite Htext, Htexts.
Qed.

(** X6.  Framing round trip.  A stream of lines, each of 1 to 41 bytes
    without NUL and line feed and each closed by a line feed, fed to an
    assembler whose count is zero, is completed line by line, in
    order: the texts are the lines, each without its one trailing
    carriage return if it has one, and the count is zero again. *)
Theorem run_framed_lines (ovf : float -> Z) (lines : list (list char))
    (st : state) :
  length (receivedStr st) = Z.to_nat maxChars -> numCharsReceived st = 0 ->
  Forall plain_line lines ->
  exists st' cls,
    run ovf (framed [LF] lines) st = Done (st', cls) /\
    text <$> cls = strip_cr <$> lines /\
    numCharsReceived st' = 0.
Proof.
  intros Hlen Hn Hall.
  destruct (run_lines ovf lines st Hlen Hn Hall) as (st' & cls & ? & ? & _ & ?).
  by exists st', cls.
Qed.

Lemma plain_line_chars_5000 : plain_line (chars "5000").
Proof.
  repeat split; [discriminate | vm_compute; lia | |];
    intros H; apply list_elem_of_In in H; vm_compute in H; intuition discriminate.
Defined.

Lemma plain_line_chars_12_CR : plain_line (chars "12.5" ++ [CR]).
Proof.
  repeat split; [discriminate | vm_compute; lia | |];
    intros H; apply list_elem_of_In in H; vm_compute in H; intuition discriminate.
Defined.

Lemma run_framed_lines_witness :
  exists st' cls,
    run (fun _ => 0) (framed [LF] [chars "5000"; chars "12.5" ++ [CR]]) initial
      = Done (st', cls) /\
    text <$> cls = [chars "5000"; chars "12.5"].
Proof.
  destruct (run_framed_lines (fun _ => 0) [chars "5000"; chars "12.5" ++ [CR]] initial)
    as (st' & cls & Hrun & Htexts & _).
  - reflexivity.
  - reflexivity.
  - constructor; [exact plain_line_chars_5000 |].
    constructor; [exact plain_line_chars_12_CR | constructor].
  - exists st', cls. split; [exact Hrun | exact Htexts].
Defined.

Lemma framed_CRLF (lines : list (list char)) :
  framed [CR; LF] lines = framed [LF] ((fun l => l ++ [CR]) <$> lines).
Proof.
  unfold framed. induction lines as [| l lines IH]; [done |].
  cbn [fmap list_fmap concat]. cbn [fmap] in IH. rewrite IH.
  rewrite <- !(assoc_L (++)). reflexivity.
Qed.

(** X7.  The protocol of the scale: lines closed by carriage return and line
    feed.  Every line of at most 40 bytes without NUL and line feed,
    the empty line included, is completed with exactly its bytes as
    text, and no stream of such lines faults. *)
Theorem run_CRLF_lines (ovf : float -> Z) (lines : list (list char))
    (st : state) :
  length (receivedStr st) = Z.to_nat maxChars -> numCharsReceived st = 0 ->
  Forall (fun l => (length l <= 40)%nat /\ NUL ∉ l /\ LF ∉ l) lines ->
  exists st' cls,
    run ovf (framed [CR; LF] lines) st = Done (st', cls) /\
    text <$> cls = lines /\
    numCharsReceived st' = 0.
Proof.
  intros Hlen Hn Hall. rewrite framed_CRLF.
  destruct (run_lines ovf ((fun l => l ++ [CR]) <$> lines) st Hlen Hn)
    as (st' & cls & Hrun & Htexts & _ & Hn').
  - apply Forall_fmap. eapply Forall_impl; [exact Hall |].
    intros l (Hmax & Hnul & Hlf). unfold compose, plain_line. cbn beta.
    rewrite length_app. cbn [length].
    repeat split; [by destruct l | lia | |];
      rewrite elem_of_app, list_elem_of_singleton; intros [? | ?];
      done.
  - exists st', cls. repeat split; [done | | done].
    rewrite Htexts, <- list_fmap_compose.
    rewrite <- (list_fmap_id lines) at 2. apply list_fmap_ext.
    intros i l _. cbn. rewrite strip_cr_snoc. done.
Qed.

Lemma run_CRLF_lines_witness :
  exists st' cls,
    run (fun _ => 0) (framed [CR; LF] [chars "5000"; []; chars "12.5 g"]) initial
      = Done (st', cls) /\
    text <$> cls = [chars "5000"; []; chars "12.5 g"].
Proof.
  destruct (run_CRLF_lines (fun _ => 0) [chars "5000"; []; chars "12.5 g"] initial)
    as (st' & cls & Hrun & Htexts & _).
  - reflexivity.
  - reflexivity.
  - repeat (apply Forall_cons_2 || apply Forall_nil_2);
      (split; [vm_compute; lia |]);
      split; intros H; apply list_elem_of_In in H; vm_compute in H;
      intuition discriminate.
  - exists st', cls. split; [exact Hrun | exact Htexts].
Defined.

(** ** The buffer between line feeds *)

Lemma feed_resets_state (ovf : float -> Z) (c : char) (st st' : state)
    (cl : CompletedLine) :
  feed ovf c st = Done (st', Some cl) ->
  cstring (receivedStr st') = Done [] /\ numCharsReceived st' = 0.
Proof.
  intros H.
  destruct (Ascii.eqb c LF || (numCharsReceived st =? maxChars)) eqn:Hc.
  - by destruct (feed_finalize_resets ovf c st st' _ Hc H) as (_ & ? & ?).
  - by pose proof (feed_append_None ovf c st st' _ Hc H).
Qed.

(** X8.  What is appended is what the buffer holds.  After up to 41 bytes
    without line feed, from a count of zero, no line has been
    completed, the count is the number of bytes, the first cells of the
    array are the bytes in order, and the cell after them holds the
    terminator. *)
Theorem run_buffers_bytes (ovf : float -> Z) (bs : list char) (st : state) :
  length (receivedStr st) = Z.to_nat maxChars -> numCharsReceived st = 0 ->
  (length bs <= 41)%nat -> LF ∉ bs ->
  exists st',
    run ovf bs st = Done (st', []) /\
    numCharsReceived st' = Z.of_nat (length bs) /\
    take (length bs) (receivedStr st') = bs /\
    (bs <> [] -> receivedStr st' !! length bs = Some NUL) /\
    length (receivedStr st') = Z.to_nat maxChars.
Proof.
  intros Hlen Hn Hmax Hlf.
  assert (Hst : holds [] st) by (by repeat split).
  destruct (run_append ovf bs [] st Hst) as (st' & Hrun & Hst');
    [cbn; lia | done |]. cbn [app] in Hst'.
  destruct Hst' as (? & ? & ? & ?). by exists st'.
Qed.

Lemma run_buffers_bytes_witness :
  exists st',
    run (fun _ => 0) (chars "5000") initial = Done (st', []) /\
    numCharsReceived st' = 4 /\
    take 4 (receivedStr st') = chars "5000".
Proof.
  destruct (run_buffers_bytes (fun _ => 0) (chars "5000") initial)
    as (st' & Hrun & Hn & Htake & _).
  - reflexivity.
  - reflexivity.
  - vm_compute. lia.
  - intros H. apply list_elem_of_In in H. vm_compute in H. intuition discriminate.
  - exists st'. split; [exact Hrun |]. split; [exact Hn | exact Htake].
Defined.

(** X9.  The bound is exact: whatever the bytes are, 42 of them without a
    line feed, from a count of zero, fault at index 42, and so does
    every stream that starts with them. *)
Theorem run_long_line_faults (ovf : float -> Z) (b1 b2 : list char) (st : state) :
  length (receivedStr st) = Z.to_nat maxChars -> numCharsReceived st = 0 ->
  length b1 = 42%nat -> LF ∉ b1 ->
  run ovf (b1 ++ b2) st = Fault (OutOfBounds 42).
Proof.
  intros Hlen Hn Hb1 Hlf.
  destruct b1 as [| c b0] using rev_ind; [discriminate Hb1 |]. clear IHb0.
  rewrite length_app in Hb1. cbn [length] in Hb1.
  assert (Hst : holds [] st) by (by repeat split).
  destruct (run_append ovf b0 [] st Hst) as (st1 & Hrun & Hst1);
    [cbn; lia | set_solver |]. cbn [app] in Hst1.
  destruct Hst1 as (Hlen1 & Hn1 & _).
  rewrite <- !(assoc_L (++)), run_app, Hrun. cbn [mbind result_bind app run].
  rewrite feed_overruns; [done | done | | set_solver].
  rewrite Hn1. unfold maxChars. lia.
Qed.

Lemma run_long_line_faults_witness :
  run (fun _ => 0) (replicate 42 "7"%char ++ [CR; LF]) initial
    = Fault (OutOfBounds 42).
Proof.
  apply run_long_line_faults.
  - reflexivity.
  - reflexivity.
  - reflexivity.
  - intros H. apply list_elem_of_In in H. vm_compute in H. intuition discriminate.
Defined.

(** X10.  A NUL byte ends the text of its line: of a line [p1], NUL, [p2],
    line feed (41 bytes at most before the line feed, [p1] not empty
    and without NUL) the completed text is [p1] without its trailing
    carriage return, and [p2] is dropped.  When the line starts with
    the NUL, the line feed finds an empty string and faults at index
    65535. *)
Theorem run_cut_at_NUL (ovf : float -> Z) (p1 p2 : list char) (st : state) :
  length (receivedStr st) = Z.to_nat maxChars -> numCharsReceived st = 0 ->
  (length p1 + 1 + length p2 <= 41)%nat ->
  NUL ∉ p1 -> LF ∉ p1 -> LF ∉ p2 ->
  (p1 <> [] ->
   exists st' cl,
     run ovf (p1 ++ NUL :: p2 ++ [LF]) st = Done (st', [cl]) /\
     text cl = strip_cr p1) /\
  (p1 = [] ->
   run ovf (p1 ++ NUL :: p2 ++ [LF]) st = Fault (OutOfBounds 65535)).
Proof.
  intros Hlen Hn Hmax Hnul Hlf1 Hlf2.
  assert (Hst : holds [] st) by (by repeat split).
  destruct (run_append ovf (p1 ++ NUL :: p2) [] st Hst) as (st1 & Hrun & Hst1).
  { rewrite length_app. cbn. lia. }
  { rewrite elem_of_app, elem_of_cons. intros [? | [? | ?]]; done. }
  cbn [app] in Hst1.
  destruct (holds_array _ _ Hst1) as (tl & Harr); [by destruct p1 |].
  rewrite <- (assoc_L (++)) in Harr. cbn [app] in Harr.
  replace (p1 ++ NUL :: p2 ++ [LF]) with ((p1 ++ NUL :: p2) ++ [LF])
    by (by rewrite <- (assoc_L (++))).
  rewrite run_app, Hrun. cbn [mbind result_bind run].
  split.
  - intros Hne.
    destruct (feed_LF_array ovf p1 _ st1 Harr) as (st2 & cl & Hfeed & Htext);
      [done | done | lia |].
    exists st2, cl. by rewrite Hfeed.
  - intros ->. destruct st1 as [buf n]. cbn [receivedStr app] in *. subst buf.
    destruct Hst1 as (Hlen1 & _). cbn [receivedStr length] in Hlen1.
    change (Z.to_nat maxChars) with 42%nat in Hlen1.
    rewrite feed_LF_empty; [done |].
    rewrite length_app in *. cbn [length] in *. lia.
Qed.

Lemma run_cut_at_NUL_witness :
  (exists st' cl,
     run (fun _ => 0) (chars "50" ++ NUL :: chars "00" ++ [LF]) initial
       = Done (st', [cl]) /\
     text cl = chars "50") /\
  run (fun _ => 0) ([] ++ NUL :: chars "00" ++ [LF]) initial
    = Fault (OutOfBounds 65535).
Proof.
  split.
  - apply (run_cut_at_NUL (fun _ => 0) (chars "50") (chars "00") initial);
      try reflexivity; try discriminate; try (vm_compute; lia);
      intros H; apply list_elem_of_In in H; vm_compute in H; intuition discriminate.
  - apply (run_cut_at_NUL (fun _ => 0) [] (chars "00") initial);
      try reflexivity; try (vm_compute; lia);
      intros H; apply list_elem_of_In in H; vm_compute in H; intuition discriminate.
Defined.

(** X11.  Right after a completed line the string in the buffer is empty, so
    a line feed that follows at once (a blank line, or a second line
    feed) faults at index 65535. *)
Theorem blank_line_faults (ovf : float -> Z) (c : char) (st st' : state)
    (cl : CompletedLine) :
  length (receivedStr st) = Z.to_nat maxChars ->
  feed ovf c st = Done (st', Some cl) ->
  feed ovf LF st' = Fault (OutOfBounds 65535).
Proof.
  intros Hlen H.
  pose proof (feed_length ovf c st st' _ H) as Hlen'. rewrite Hlen in Hlen'.
  destruct (feed_resets_state ovf c st st' cl H) as [Hcs _].
  destruct (cstring_inv _ _ Hcs) as (tl & Harr & _). cbn [app] in Harr.
  destruct st' as [buf n]. cbn [receivedStr] in *. subst buf.
  apply feed_LF_empty. cbn [length] in Hlen'.
  change (Z.to_nat maxChars) with 42%nat in Hlen'. lia.
Qed.

Lemma blank_line_faults_witness :
  let st := {| receivedStr := chars "5000" ++ CR :: replicate 37 NUL;
               numCharsReceived := 5 |} in
  exists st' cl,
    feed (fun _ => 0) LF st = Done (st', Some cl) /\
    feed (fun _ => 0) LF st' = Fault (OutOfBounds 65535).
Proof.
  intros st.
  destruct (feed (fun _ => 0) LF st) as [[st' [cl |]] |] eqn:E;
    try (vm_compute in E; discriminate E).
  exists st', cl. split; [reflexivity |].
  exact (blank_line_faults (fun _ => 0) LF st st' cl eq_refl E).
Defined.

(** ** More on [checkWeigh] *)

(** X12.  [checkWeigh] writes the three LED pins and no other: the level of
    every other pin is what it was. *)
Theorem checkWeigh_other_pins (w : float) (pins : gmap Z level) (pin : Z) :
  pin <> pinHiLed -> pin <> pinOkLed -> pin <> pinLoLed ->
  drive (checkWeigh w) pins !! pin = pins !! pin.
Proof.
  intros Hhi Hok Hlo. rewrite checkWeigh_signals.
  destruct (if flt w loLimit then _ else _); cbn;
    by rewrite !lookup_insert_ne.
Qed.

Lemma checkWeigh_other_pins_witness :
  drive (checkWeigh (float_of_Z 5000)) {[ 13 := HIGH ]} !! 13 = Some HIGH.
Proof.
  rewrite (checkWeigh_other_pins (float_of_Z 5000) {[ 13 := HIGH ]} 13);
    [reflexivity | discriminate ..].
Defined.

(** X13.  The special values of the weight: a zero of either sign, every
    negative number and minus infinity are Low; plus infinity is High;
    a NaN, for which both comparisons are false, is Ok. *)
Theorem checkWeigh_special_values :
  (forall s, checkWeigh (S754_zero s) = signals Low) /\
  (forall m e, checkWeigh (S754_finite true m e) = signals Low) /\
  checkWeigh (S754_infinity true) = signals Low /\
  checkWeigh (S754_infinity false) = signals High /\
  checkWeigh S754_nan = signals Ok.
Proof.
  repeat split; intros; rewrite checkWeigh_signals;
    try destruct s; vm_compute; reflexivity.
Qed.

(** ** The readings of the scale, one by one *)

Lemma forallb_seqZ (f : Z -> bool) (a n w : Z) :
  forallb f (seqZ a n) = true -> a <= w < a + n -> f w = true.
Proof.
  intros H Hw. rewrite forallb_forall in H. apply H.
  apply list_elem_of_In, elem_of_seqZ. lia.
Qed.

Lemma holds_on_blocks_spec (f : Z -> bool) (k n w : Z) :
  holds_on_blocks f k n = true -> 0 < n -> 0 <= w < k * n -> f w = true.
Proof.
  intros H Hn Hw. unfold holds_on_blocks in H.
  pose proof (Z.div_mod w n ltac:(lia)) as Hdiv.
  pose proof (Z.mod_pos_bound w n Hn) as Hmod.
  assert (Hj : 0 <= w / n < 0 + k).
  { split; [apply Z.div_pos; lia |].
    apply Z.div_lt_upper_bound; lia. }
  pose proof (forallb_seqZ _ 0 k (w / n) H Hj) as Hblock. cbn beta in Hblock.
  apply (forallb_seqZ f _ _ w Hblock). lia.
Qed.

Lemma reading_agrees_all (ovf : float -> Z) :
  holds_on_blocks (reading_agrees ovf) 621 100 = true.
Proof. vm_compute. reflexivity. Qed.

Lemma reading_agrees_spec (ovf : float -> Z) (w : Z) :
  0 <= w <= 62000 ->
  segments ovf (reading w) = exact_segments w /\
  state_of (checkWeigh (reading w)) = Some (exact_state w).
Proof.
  intros Hw.
  pose proof (holds_on_blocks_spec _ 621 100 w (reading_agrees_all ovf)
                ltac:(lia) ltac:(lia)) as H.
  unfold reading_agrees in H. cbv zeta in H.
  apply andb_true_iff in H as [Hseg Hst].
  apply Z.eqb_eq in Hseg. by apply bool_decide_eq_true in Hst.
Qed.

(** X14.  For every reading from 0.0 to 6200.0 grams in steps of 0.1 gram,
    the segment count that [updateBar] computes in binary32 is the
    exactly rounded 16 * weight / 6200 (halves up): no reading is off
    by one through the rounding of the float operations, and the bar
    shows that many filled cells. *)
Theorem updateBar_exact_on_readings (ovf : float -> Z) (w : Z) :
  0 <= w <= 62000 ->
  segments ovf (reading w) = exact_segments w /\
  0 <= exact_segments w <= 16 /\
  updateBar ovf (reading w)
    = Done (SetCursor 0 1 :: (LcdWrite <$> bar (Z.to_nat (exact_segments w)) 16)).
Proof.
  intros Hw. destruct (reading_agrees_spec ovf w Hw) as [H _].
  assert (Hr : 0 <= exact_segments w <= 16).
  { unfold exact_segments. split.
    - apply Z.div_pos; lia.
    - apply Z.lt_succ_r, Z.div_lt_upper_bound; lia. }
  repeat split; [done | lia | lia |].
  rewrite updateBar_bar, H. unfold clamp. do 4 f_equal. lia.
Qed.

Lemma updateBar_exact_on_readings_witness :
  segments (fun _ => 0) (reading 31000) = 8.
Proof.
  destruct (updateBar_exact_on_readings (fun _ => 0) 31000 ltac:(lia)) as [H _].
  exact H.
Defined.

(** X15.  For every reading from 0.0 to 6200.0 grams in steps of 0.1 gram,
    [checkWeigh] on the binary32 weight decides as the exact decimal
    comparison does: Low below 4990.0, High above 5010.0, Ok from
    4990.0 to 5010.0, the limits included. *)
Theorem checkWeigh_exact_on_readings (w : Z) :
  0 <= w <= 62000 ->
  checkWeigh (reading w) = signals (exact_state w).
Proof.
  intros Hw. destruct (reading_agrees_spec (fun _ => 0) w Hw) as [_ H].
  rewrite checkWeigh_signals in *.
  destruct (if flt (reading w) loLimit then _ else _);
    cbn in H; by injection H as <-.
Qed.

Lemma checkWeigh_exact_on_readings_witness :
  checkWeigh (reading 49899) = signals Low /\
  checkWeigh (reading 49900) = signals Ok /\
  checkWeigh (reading 50100) = signals Ok /\
  checkWeigh (reading 50101) = signals High.
Proof.
  split; [exact (checkWeigh_exact_on_readings 49899 ltac:(lia)) |].
  split; [exact (checkWeigh_exact_on_readings 49900 ltac:(lia)) |].
  split; [exact (checkWeigh_exact_on_readings 50100 ltac:(lia)) |].
  exact (checkWeigh_exact_on_readings 50101 ltac:(lia)).
Defined.

(** ** [setup] and the loop *)



(** ** The screen after a line *)

(** Writing characters from the cursor on. *)
Lemma display_chars (cs : list char) (d : lcd) :
  cursor (display (LcdWrite <$> cs) d)
    = (fst (cursor d) + Z.of_nat (length cs), snd (cursor d)) /\
  forall col row,
    cells (display (LcdWrite <$> cs) d) !! (col, row) =
      if decide (row = snd (cursor d) /\
                 fst (cursor d) <= col < fst (cursor d) + Z.of_nat (length cs))
      then cs !! Z.to_nat (col - fst (cursor d))
      else cells d !! (col, row).
Proof.
  revert d. induction cs as [| x cs IH]; intros d.
  - cbn. split; [destruct (cursor d); cbn; f_equal; lia |].
    intros col row. case_decide; [lia | done].
  - destruct d as [[c0 r0] cl0].
    destruct (IH (lcd_step {| cursor := (c0, r0); cells := cl0 |} (LcdWrite x)))
      as [Hcur Hcells].
    unfold display in *.
    cbn [fmap list_fmap foldl lcd_step cursor cells fst snd length] in *.
    split; [rewrite Hcur; f_equal; lia |].
    intros col row. rewrite Hcells.
    repeat case_decide; try lia.
    + replace (Z.to_nat (col - c0)) with (S (Z.to_nat (col - (c0 + 1)))) by lia.
      done.
    + assert (col = c0) as -> by lia. destruct H0 as [-> _].
      rewrite lookup_insert_eq. by rewrite Z.sub_diag.
    + rewrite lookup_insert_ne; [done |]. intros [= <- <-]. lia.
Qed.

Lemma display_app (evs1 evs2 : list event) (d : lcd) :
  display (evs1 ++ evs2) d = display evs2 (display evs1 d).
Proof. apply foldl_app. Qed.

Lemma display_checkWeigh (w : float) (d : lcd) : display (checkWeigh w) d = d.
Proof.
  rewrite checkWeigh_signals. by destruct (if flt w loLimit then _ else _).
Qed.

(** A complete row written from column 0. *)
Lemma display_row (r : Z) (cs : list char) (d : lcd) (col row : Z) :
  cells (display (SetCursor 0 r :: (LcdWrite <$> cs)) d) !! (col, row) =
    if decide (row = r /\ 0 <= col < Z.of_nat (length cs))
    then cs !! Z.to_nat col
    else cells d !! (col, row).
Proof.
  change (display (SetCursor 0 r :: (LcdWrite <$> cs)) d)
    with (display (LcdWrite <$> cs) {| cursor := (0, r); cells := cells d |}).
  destruct (display_chars cs {| cursor := (0, r); cells := cells d |}) as [_ H].
  rewrite H. cbn [cursor cells fst snd]. rewrite Z.add_0_l, Z.sub_0_r. done.
Qed.

(** X17.  After every completed line the screen shows the line and its bar,
    whatever it showed before: the 16 cells of row 0 hold the text cut
    or padded with spaces (nothing of a longer, older text is left),
    the 16 cells of row 1 hold the bar, and no other cell is changed. *)
Theorem screen_after_line (ovf : float -> Z) (c : char) (st st' : state)
    (cl : CompletedLine) (d : lcd) :
  length (receivedStr st) = Z.to_nat maxChars ->
  feed ovf c st = Done (st', Some cl) ->
  let d' := display (outputs cl) d in
  (forall k, (k < 16)%nat ->
     cells d' !! (Z.of_nat k, 0) = row 16 (text cl) !! k /\
     cells d' !! (Z.of_nat k, 1)
       = bar (clamp (segments ovf (weight cl))) 16 !! k) /\
  (forall col row,
     ~ (0 <= col < 16 /\ 0 <= row <= 1) ->
     cells d' !! (col, row) = cells d !! (col, row)).
Proof.
  intros Hlen H d'. subst d'.
  destruct (feed_line_outputs ovf c st st' cl Hlen H) as (_ & _ & -> & _).
  set (top := row 16 (text cl)).
  set (bot := bar (clamp (segments ovf (weight cl))) 16).
  assert (Htop : length top = 16%nat) by apply length_row.
  assert (Hbot : length bot = 16%nat) by apply length_bar, clamp_le.
  assert (Hcells : forall col row,
    cells (display (SetCursor 0 0 :: (LcdWrite <$> top) ++
                    SetCursor 0 1 :: (LcdWrite <$> bot) ++
                    checkWeigh (weight cl)) d) !! (col, row) =
    if decide (row = 1 /\ 0 <= col < 16) then bot !! Z.to_nat col
    else if decide (row = 0 /\ 0 <= col < 16) then top !! Z.to_nat col
    else cells d !! (col, row)).
  { intros col row.
    rewrite (app_comm_cons (LcdWrite <$> top)), display_app.
    rewrite (app_comm_cons (LcdWrite <$> bot)), display_app.
    rewrite display_checkWeigh, !display_row, Htop, Hbot. done. }
  split.
  - intros k Hk. rewrite !Hcells.
    repeat case_decide; try lia. by rewrite Nat2Z.id.
  - intros col row Hout. rewrite Hcells.
    repeat case_decide; (lia || done).
Qed.

Lemma screen_after_line_witness :
  let st := {| receivedStr := chars "50" ++ CR :: replicate 39 NUL;
               numCharsReceived := 3 |} in
  let old := {| cursor := (0, 0);
                cells := {[ (2, 0) := "9"%char; (15, 1) := "="%char ]} |} in
  exists st' cl,
    feed (fun _ => 0) LF st = Done (st', Some cl) /\
    cells (display (outputs cl) old) !! (2, 0) = Some SPACE /\
    cells (display (outputs cl) old) !! (15, 1) = Some SPACE.
Proof.
  intros st old.
  destruct (feed (fun _ => 0) LF st) as [[st' [cl |]] |] eqn:E;
    try (vm_compute in E; discriminate E).
  exists st', cl. split; [reflexivity |].
  destruct (screen_after_line (fun _ => 0) LF st st' cl old eq_refl E) as [Hk _].
  destruct (Hk 2%nat ltac:(lia)) as [H2 _].
  destruct (Hk 15%nat ltac:(lia)) as [_ H15].
  change (Z.of_nat 2) with 2 in H2. change (Z.of_nat 15) with 15 in H15.
  rewrite H2, H15.
  vm_compute in E. injection E as _ <-. split; reflexivity.
Defined.
